(** * VoiceDoc agent: the Firestore retrieval core ([src/lib/firestore.ts])

    A shallow embedding of the chunk store, the document registry and the
    client-side cosine-similarity search, followed by the properties the
    specification states about them and by further properties of the
    code.

    JavaScript numbers are IEEE 754 binary64 values; they are modelled by
    Rocq's primitive floats, which are the same values with the same
    round-to-nearest-even operations.  Firestore is modelled as explicit
    state threaded through a small state-and-exception monad that also
    carries the console.

    The file has three parts: the embedding of the source, the vocabulary
    of the statements, and the proofs (facts about binary64 arithmetic
    first, then the loop, the sort, the search and the ingestion). *)

From Stdlib Require Import Floats ZArith String List Bool Lia.
From Stdlib Require Import Reals Lra.
From Stdlib Require Import Permutation Sorted.
Import ListNotations.

Set Implicit Arguments.

(** ** JavaScript primitives used by the module *)

Module Js.

Definition number := float.

(** [vec[i]] read inside an arithmetic expression: an index past the end
    yields [undefined], which [ToNumber] turns into [NaN]. *)
Definition index (vec : list number) (i : nat) : number := nth i vec nan.

(** [x === y] on numbers: [NaN] differs from everything, [+0 === -0]. *)
Definition strict_eq (x y : number) : bool := PrimFloat.eqb x y.

(** Truthiness of an optional string ([if (filename)]): [undefined] and
    the empty string are falsy. *)
Definition truthy (s : option string) : bool :=
  match s with
  | Some s' => negb (String.eqb s' EmptyString)
  | None => false
  end.

(** The value under a key declared [key?: T], when the key is there: a
    [T], or [undefined] itself ([{ summary: undefined }] is a
    [DocumentMetadata]).  A record below holds such a key as an [option]:
    [None] when the object has no such key.  Reading the key gives
    [undefined] in both cases; the Firestore client tells them apart when
    it validates a document. *)
Inductive or_undefined (A : Type) :=
| undefined
| defined (a : A).
Arguments undefined {A}.
Arguments defined {A} a.

(** [arr.slice(0, final)].  The limit is an integer here ([ToIntegerOrInfinity],
    which [slice] applies first, is the identity on integral numbers); a
    negative [final] counts from the end of the array. *)
Definition slice0 {A : Type} (arr : list A) (final : Z) : list A :=
  let len := Z.of_nat (length arr) in
  let k := if (final <? 0)%Z then Z.max (len + final) 0 else Z.min final len in
  firstn (Z.to_nat k) arr.

(** [arr.sort(comparefn)].  The comparator returns a number [v]: a
    negative [v] orders its first argument before the second, a positive
    [v] after it, and anything else (zero, [NaN]) leaves the two in their
    original relative order; the sort is stable (ECMAScript 2019).  The
    algorithm itself is left to the engine; an insertion sort stands for
    it here.  [insert x l] places [x], which preceded every element of
    [l] in the array, in front of the first element that is not strictly
    before it.  With a consistent comparator every conforming algorithm
    returns this list; with an inconsistent one (a [NaN] among the
    results) the order is the engine's choice, and the properties below
    that are stated for that case too rest only on the sort returning a
    permutation of its input and the same one at every call. *)
Section Sort.
Context {A : Type} (comparefn : A -> A -> number).

Definition before (a b : A) : bool := PrimFloat.ltb (comparefn a b) zero.

Fixpoint insert (x : A) (l : list A) : list A :=
  match l with
  | [] => [x]
  | y :: l' => if before y x then y :: insert x l' else x :: l
  end.

Definition sort (arr : list A) : list A := fold_right insert [] arr.
End Sort.

End Js.

(** ** Data model

    The two interfaces of the module.  [summary] and [pageNumber] are
    written to the store as the caller gives them, so that a key holding
    [undefined] is kept apart from a missing key.  [created_at] and [id]
    are plain options, the module never telling a missing key from
    [undefined] there: [saveDocumentMetadata] overwrites the first, and
    [saveChunks] does not write the second. *)

Definition DocId := nat.
Definition Date := Z.

Module DocumentMetadata.
Record t := mk {
  hash : string;
  filename : string;
  persona : string;
  summary : option (Js.or_undefined string);
  created_at : option Date
}.
End DocumentMetadata.

Module ChunkMetadata.
Record t := mk {
  filename : string;
  persona : string;
  pageNumber : option (Js.or_undefined Z)
}.
End ChunkMetadata.

Module Chunk.
Record t := mk {
  id : option DocId;
  text : string;
  embedding : list Js.number;
  metadata : ChunkMetadata.t
}.
End Chunk.

(** What [saveChunks] writes under a fresh document id of the
    [document_chunks] collection. *)
Record ChunkDoc := {
  chunk_doc_id : DocId;
  chunk_doc_text : string;
  chunk_doc_embedding : list Js.number;
  chunk_doc_metadata : ChunkMetadata.t;
  chunk_doc_created_at : Date
}.

(** What [saveDocumentMetadata] writes under a fresh document id of the
    [documents] collection. *)
Record DocumentDoc := {
  document_doc_id : DocId;
  document_doc_data : DocumentMetadata.t
}.

(** The database: the two collections, each as the sequence a query
    returns its documents in, the next automatic id, and whether the
    service answers.  (Firestore orders a snapshot by document id; that new
    documents come last here is a choice no property depends on.) *)
Record Firestore := {
  reachable : bool;
  next_id : DocId;
  document_chunks : list ChunkDoc;
  documents : list DocumentDoc
}.

(** ** The client handle

    [let firestore: Firestore | null = null] and [getFirestore()]: the
    module keeps one handle, built at the first call from the environment
    of that moment ([process.env.VERTEX_PROJECT_ID], [undefined] when the
    variable is not set).  [constructed] counts the [new Firestore(...)]
    calls of the process and gives each handle its identity.  The
    functions below reach the database through this handle; there it is
    implicit in the [store] of the world. *)

Record Client := {
  client_id : nat;
  projectId : option string;
  databaseId : string
}.

Record Process := {
  firestore : option Client;
  VERTEX_PROJECT_ID : option string;
  constructed : nat
}.

Definition getFirestore (p : Process) : Client * Process :=
  match firestore p with
  | Some c => (c, p)
  | None =>
      let projectId := VERTEX_PROJECT_ID p in
      let c := {| client_id := constructed p;
                  projectId := projectId;
                  databaseId := "voicedoc-fs" |} in
      (c, {| firestore := Some c;
             VERTEX_PROJECT_ID := VERTEX_PROJECT_ID p;
             constructed := S (constructed p) |})
  end.

(** ** Console *)

(** What a promise of the module is rejected with: the service did not
    answer, or the client refused the document before sending it. *)
Inductive Error := StorageUnavailable | InvalidDocument.

Inductive Level := LevelLog | LevelWarn | LevelError.

Inductive Message :=
| MsgAttempting
| MsgFallingBack
| MsgFiltering (filename : string)
| MsgNoFilename
| MsgRetrieved (n : nat)
| MsgFirstMetadata (m : ChunkMetadata.t)
| MsgScoring (n : nat)
| MsgSearchFailed (e : Error).

Record World := {
  store : Firestore;
  console : list (Level * Message)
}.

(** ** The monad of the asynchronous functions: state, and a promise that
    is fulfilled or rejected *)

Inductive Outcome (A : Type) :=
| Fulfilled (a : A)
| Rejected (e : Error).
Arguments Fulfilled {A} a.
Arguments Rejected {A} e.

Definition Io (A : Type) := World -> Outcome A * World.

Definition ret {A} (a : A) : Io A := fun w => (Fulfilled a, w).

Definition bind {A B} (m : Io A) (k : A -> Io B) : Io B :=
  fun w =>
    match m w with
    | (Fulfilled a, w') => k a w'
    | (Rejected e, w') => (Rejected e, w')
    end.

Definition try_catch {A} (body : Io A) (handler : Error -> Io A) : Io A :=
  fun w =>
    match body w with
    | (Fulfilled a, w') => (Fulfilled a, w')
    | (Rejected e, w') => handler e w'
    end.

Declare Scope io_scope.
Delimit Scope io_scope with io.
Notation "x <- m ;; k" := (bind m (fun x => k))
  (at level 61, m at next level, right associativity) : io_scope.
Notation "m ;;; k" := (bind m (fun _ => k))
  (at level 61, right associativity) : io_scope.

Definition emit (l : Level) (m : Message) : Io unit :=
  fun w => (Fulfilled tt, {| store := store w; console := console w ++ [(l, m)] |}).

Definition console_log := emit LevelLog.
Definition console_warn := emit LevelWarn.
Definition console_error := emit LevelError.

(** ** Firestore operations *)

(** A query on [document_chunks]: the whole collection, or
    [.where('metadata.filename', '==', f)]. *)
Definition ChunkQuery := option string.

Definition matches (q : ChunkQuery) (d : ChunkDoc) : bool :=
  match q with
  | None => true
  | Some f => String.eqb (ChunkMetadata.filename (chunk_doc_metadata d)) f
  end.

(** [queryRef.get()] *)
Definition chunks_get (q : ChunkQuery) : Io (list ChunkDoc) :=
  fun w =>
    if reachable (store w)
    then (Fulfilled (filter (matches q) (document_chunks (store w))), w)
    else (Rejected StorageUnavailable, w).

(** [collection(DOCUMENTS_COLLECTION).where('hash', '==', h).limit(1).get()] *)
Definition documents_get_by_hash (h : string) : Io (list DocumentDoc) :=
  fun w =>
    if reachable (store w)
    then (Fulfilled
            (firstn 1 (filter (fun d => String.eqb (DocumentMetadata.hash (document_doc_data d)) h)
                              (documents (store w)))), w)
    else (Rejected StorageUnavailable, w).

Definition with_store (w : World) (s : Firestore) : World :=
  {| store := s; console := console w |}.

(** The client validates the fields of a document when it is handed to
    [batch.set] or [add], before anything is sent: with the settings of
    [getFirestore] (no [ignoreUndefinedProperties]) it throws on a key
    whose value is [undefined], at any depth; a missing key is accepted.
    Of the typed fields the two functions write, [metadata.pageNumber] of
    a chunk and [summary] of a document record can be [undefined]
    ([created_at] is overwritten by [new Date()], and a chunk's [id] is
    not written). *)
Definition accepted {A : Type} (field : option (Js.or_undefined A)) : bool :=
  match field with
  | Some Js.undefined => false
  | _ => true
  end.

Definition valid_chunk (chunk : Chunk.t) : bool :=
  accepted (ChunkMetadata.pageNumber (Chunk.metadata chunk)).

Definition valid_metadata (metadata : DocumentMetadata.t) : bool :=
  accepted (DocumentMetadata.summary metadata).

(** [batch.commit()] of one [batch.set(collection.doc(), ...)] per chunk:
    all of them become visible, or none.  [now] is the instant of the
    batch's [new Date()] calls. *)
Fixpoint chunk_docs (first : DocId) (now : Date) (chunks : list Chunk.t) : list ChunkDoc :=
  match chunks with
  | [] => []
  | c :: cs =>
      {| chunk_doc_id := first;
         chunk_doc_text := Chunk.text c;
         chunk_doc_embedding := Chunk.embedding c;
         chunk_doc_metadata := Chunk.metadata c;
         chunk_doc_created_at := now |} :: chunk_docs (S first) now cs
  end.

(** The [forEach] fills the batch, and throws at the first chunk the
    client refuses, before [batch.commit()] is reached; the exception
    rejects the promise of the [async] function. *)
Definition saveChunks (now : Date) (chunks : list Chunk.t) : Io unit :=
  fun w =>
    let s := store w in
    if forallb valid_chunk chunks
    then
      if reachable s
      then (Fulfilled tt,
            with_store w
              {| reachable := reachable s;
                 next_id := next_id s + length chunks;
                 document_chunks := document_chunks s ++ chunk_docs (next_id s) now chunks;
                 documents := documents s |})
      else (Rejected StorageUnavailable, w)
    else (Rejected InvalidDocument, w).

Definition getDocumentByHash (h : string) : Io (option DocumentMetadata.t) :=
  (snapshot <- documents_get_by_hash h ;;
   match snapshot with
   | [] => ret None
   | d :: _ => ret (Some (document_doc_data d))
   end)%io.

(** [collection.add({ ...metadata, created_at: new Date() })]: [add]
    validates the record, then sends it. *)
Definition saveDocumentMetadata (now : Date) (metadata : DocumentMetadata.t) : Io unit :=
  fun w =>
    let s := store w in
    if valid_metadata metadata
    then
      if reachable s
      then (Fulfilled tt,
            with_store w
              {| reachable := reachable s;
                 next_id := S (next_id s);
                 document_chunks := document_chunks s;
                 documents := documents s ++
                   [{| document_doc_id := next_id s;
                       document_doc_data :=
                         DocumentMetadata.mk
                           (DocumentMetadata.hash metadata)
                           (DocumentMetadata.filename metadata)
                           (DocumentMetadata.persona metadata)
                           (DocumentMetadata.summary metadata)
                           (Some now) |}] |})
      else (Rejected StorageUnavailable, w)
    else (Rejected InvalidDocument, w).

(** ** Cosine similarity *)

Record Sums := {
  dotProduct : Js.number;
  normA : Js.number;
  normB : Js.number
}.

Definition sums0 : Sums := {| dotProduct := zero; normA := zero; normB := zero |}.

(** One iteration of the [for] loop, at index [i]. *)
Definition accumulate (vecA vecB : list Js.number) (s : Sums) (i : nat) : Sums :=
  {| dotProduct := (dotProduct s + Js.index vecA i * Js.index vecB i)%float;
     normA := (normA s + Js.index vecA i * Js.index vecA i)%float;
     normB := (normB s + Js.index vecB i * Js.index vecB i)%float |}.

(** [for (let i = 0; i < vecA.length; i++) ...] *)
Definition sums (vecA vecB : list Js.number) : Sums :=
  fold_left (accumulate vecA vecB) (seq 0 (length vecA)) sums0.

Definition cosineSimilarity (vecA vecB : list Js.number) : Js.number :=
  let s := sums vecA vecB in
  if Js.strict_eq (normA s) zero || Js.strict_eq (normB s) zero
  then zero
  else (dotProduct s / (PrimFloat.sqrt (normA s) * PrimFloat.sqrt (normB s)))%float.

(** ** Search *)

Record Scored := {
  chunk : Chunk.t;
  score : Js.number
}.

(** [{ id: doc.id, ...doc.data() } as Chunk] *)
Definition chunk_of_doc (d : ChunkDoc) : Chunk.t :=
  Chunk.mk (Some (chunk_doc_id d)) (chunk_doc_text d) (chunk_doc_embedding d)
           (chunk_doc_metadata d).

(** [(a, b) => b.score - a.score] *)
Definition by_score (a b : Scored) : Js.number := (score b - score a)%float.

Definition score_chunk (queryEmbedding : list Js.number) (c : Chunk.t) : Scored :=
  {| chunk := c; score := cosineSimilarity queryEmbedding (Chunk.embedding c) |}.

(** The part of [searchSimilarChunks] after the snapshot has arrived. *)
Definition rank (queryEmbedding : list Js.number) (limit : Z) (allChunks : list Chunk.t)
  : list Chunk.t :=
  let scoredChunks := map (score_chunk queryEmbedding) allChunks in
  map chunk (Js.slice0 (Js.sort by_score scoredChunks) limit).

Definition default_limit : Z := 3.

Definition searchSimilarChunks (queryEmbedding : list Js.number) (limit : option Z)
    (filename : option string) : Io (list Chunk.t) :=
  let limit := match limit with Some l => l | None => default_limit end in
  try_catch
    (console_log MsgAttempting ;;;
     console_log MsgFallingBack ;;;
     queryRef <-
       (if Js.truthy filename
        then console_log (MsgFiltering (match filename with Some f => f | None => EmptyString end)) ;;;
             ret (filename : ChunkQuery)
        else console_warn MsgNoFilename ;;;
             ret (None : ChunkQuery)) ;;
     snapshot <- chunks_get queryRef ;;
     let allChunks := map chunk_of_doc snapshot in
     console_log (MsgRetrieved (length allChunks)) ;;;
     match allChunks with
     | c :: _ => console_log (MsgFirstMetadata (Chunk.metadata c))
     | [] => ret tt
     end ;;;
     console_log (MsgScoring (length allChunks)) ;;;
     ret (rank queryEmbedding limit allChunks))%io
    (fun error => console_error (MsgSearchFailed error) ;;; ret [])%io.

(** ** Ingestion *)

Inductive Ingestion := AlreadyIngested | NewlyIngested.

(** Modelled from the spec: the ingestion sequence, which lives in the
    upload route that calls this module and is not among the sources.  The
    spec gives it as "check hash, then insert record, then batch-insert
    chunks", an existing record for the hash short-circuiting re-ingestion
    as a success, and storage faults propagating to the caller. *)
Definition ingest (now : Date) (metadata : DocumentMetadata.t) (chunks : list Chunk.t)
  : Io Ingestion :=
  (existing <- getDocumentByHash (DocumentMetadata.hash metadata) ;;
   match existing with
   | Some _ => ret AlreadyIngested
   | None =>
       saveDocumentMetadata now metadata ;;;
       saveChunks now chunks ;;;
       ret NewlyIngested
   end)%io.

(** * Vocabulary of the statements *)

(** ** The loop of [cosineSimilarity], by recursion on the vectors *)

Definition step (s : Sums) (x y : Js.number) : Sums :=
  {| dotProduct := (dotProduct s + x * y)%float;
     normA := (normA s + x * x)%float;
     normB := (normB s + y * y)%float |}.

(** The remaining iterations, [a] and [b] being what is left of the two
    arrays; an exhausted [b] reads as [NaN]. *)
Fixpoint sums_from (s : Sums) (a b : list Js.number) : Sums :=
  match a with
  | [] => s
  | x :: a' => sums_from (step s x (hd nan b)) a' (tl b)
  end.

Definition is_zero (x : Js.number) : bool := Js.strict_eq x zero.

(** A vector of Euclidean norm exactly zero: every component is a zero
    (the empty vector included). *)
Definition all_zero (v : list Js.number) : bool := forallb is_zero v.

(** The sum of squares the loop accumulates for a vector. *)
Definition squared_norm (v : list Js.number) : Js.number := normA (sums v v).

(** ** Scores and their order *)

(** The score the search gives a chunk for a query. *)
Definition score_of (q : list Js.number) (c : Chunk.t) : Js.number :=
  cosineSimilarity q (Chunk.embedding c).

(** [a] scores at least as much as [b]. *)
Definition at_least (a b : Js.number) : Prop := PrimFloat.leb b a = true.

Definition is_number (x : Js.number) : bool := negb (PrimFloat.is_nan x).

(** ** What a call of [searchSimilarChunks] reads and writes *)

(** The query the call builds: filtered when the filename is truthy. *)
Definition scope (filename : option string) : ChunkQuery :=
  if Js.truthy filename then filename else None.

(** The chunks the snapshot holds when the store answers. *)
Definition candidates (filename : option string) (s : Firestore) : list Chunk.t :=
  map chunk_of_doc (filter (matches (scope filename)) (document_chunks s)).

Definition limit_of (limit : option Z) : Z :=
  match limit with Some l => l | None => default_limit end.

(** The console line that tells which of the two fetches is made. *)
Definition announcement (filename : option string) : Level * Message :=
  match filename with
  | Some f => if Js.truthy filename then (LevelLog, MsgFiltering f) else (LevelWarn, MsgNoFilename)
  | None => (LevelWarn, MsgNoFilename)
  end.

Definition first_metadata (allChunks : list Chunk.t) : list (Level * Message) :=
  match allChunks with
  | c :: _ => [(LevelLog, MsgFirstMetadata (Chunk.metadata c))]
  | [] => []
  end.

(** What a call leaves of its result: the chunks of a fulfilled promise. *)
Definition returned (r : Outcome (list Chunk.t) * World) : list Chunk.t :=
  match fst r with
  | Fulfilled cs => cs
  | Rejected _ => []
  end.

(** The records of the registry that carry a hash. *)
Definition records_with_hash (h : string) (s : Firestore) : list DocumentDoc :=
  filter (fun d => String.eqb (DocumentMetadata.hash (document_doc_data d)) h) (documents s).

(** ** Sequences of calls *)

(** The environment variable is set (or unset) between two calls. *)
Definition setenv (v : option string) (p : Process) : Process :=
  {| firestore := firestore p; VERTEX_PROJECT_ID := v; constructed := constructed p |}.

(** One call of [getFirestore] after each change of the environment. *)
Fixpoint later_calls (envs : list (option string)) (p : Process) : list Client * Process :=
  match envs with
  | [] => ([], p)
  | v :: envs' =>
      let (c, p') := getFirestore (setenv v p) in
      let (cs, p'') := later_calls envs' p' in
      (c :: cs, p'')
  end.

(** A call of one of the four exported functions. *)
Inductive Call :=
| CallSaveChunks (now : Date) (chunks : list Chunk.t)
| CallSaveDocumentMetadata (now : Date) (metadata : DocumentMetadata.t)
| CallGetDocumentByHash (h : string)
| CallSearchSimilarChunks (queryEmbedding : list Js.number) (limit : option Z)
                          (filename : option string).

Definition perform (c : Call) (w : World) : World :=
  match c with
  | CallSaveChunks now chunks => snd (saveChunks now chunks w)
  | CallSaveDocumentMetadata now metadata => snd (saveDocumentMetadata now metadata w)
  | CallGetDocumentByHash h => snd (getDocumentByHash h w)
  | CallSearchSimilarChunks q limit filename => snd (searchSimilarChunks q limit filename w)
  end.

Definition run (calls : list Call) (w : World) : World :=
  fold_left (fun w c => perform c w) calls w.

(** ** Further vocabulary *)

(** The loop's three sums with the roles of the two vectors exchanged. *)
Definition swap (s : Sums) : Sums :=
  {| dotProduct := dotProduct s; normA := normB s; normB := normA s |}.

(** The chunks of a list that score [s], in the order of the list. *)
Definition scoring (q : list Js.number) (s : Js.number) (cs : list Chunk.t) : list Chunk.t :=
  filter (fun c => PrimFloat.eqb (score_of q c) s) cs.

(** The record [{ ...metadata, created_at: new Date() }]. *)
Definition stamped (now : Date) (metadata : DocumentMetadata.t) : DocumentMetadata.t :=
  DocumentMetadata.mk (DocumentMetadata.hash metadata) (DocumentMetadata.filename metadata)
    (DocumentMetadata.persona metadata) (DocumentMetadata.summary metadata) (Some now).

(** ** Binary64 values on the integer and the real line *)

(** The mantissa of a finite value, signed and shifted to exponent [ez]. *)
Definition aligned (s : bool) (m : positive) (e ez : Z) : Z :=
  cond_Zopp s (Z.pos (fst (shl_align m e ez))).

(** A position on the number line for each value that is not [NaN]:
    class and sign first, then exponent, then mantissa. *)
Definition rank_of (x : spec_float) : Z * Z * Z :=
  match x with
  | S754_zero _ => (0, 0, 0)%Z
  | S754_infinity s => (if s then (-2)%Z else 2%Z, 0%Z, 0%Z)
  | S754_nan => (0, 0, 0)%Z
  | S754_finite s m e => if s then (-1, - e, - Z.pos m)%Z else (1, e, Z.pos m)%Z
  end.

Definition rank_lt (a b : Z * Z * Z) : Prop :=
  let '(a1, a2, a3) := a in
  let '(b1, b2, b3) := b in
  (a1 < b1 \/ (a1 = b1 /\ (a2 < b2 \/ (a2 = b2 /\ a3 < b3))))%Z.

(** [2^e] as a real number. *)
Definition bpow (e : Z) : R := powerRZ 2 e.

(** The real number a positive finite binary float stands for. *)
Definition F2R (m : positive) (e : Z) : R := (IZR (Z.pos m) * bpow e)%R.

(** The real number a float stands for (0 for what is not a number). *)
Definition to_R (x : float) : R :=
  match Prim2SF x with
  | S754_finite s m e => if s then (- F2R m e)%R else F2R m e
  | _ => 0%R
  end.

Definition is_finite (x : float) : bool :=
  match Prim2SF x with
  | S754_finite _ _ _ | S754_zero _ => true
  | _ => false
  end.

(** The sums of squares for which the quotient below is analysed: from
    [2^-1021] to [2^1021]. *)
Definition in_range (n : float) : bool :=
  PrimFloat.leb 0x1p-1021 n && PrimFloat.leb n 0x1p+1021.

(** ** A small corpus

    Two chunks of [x.pdf] and one of [y.pdf]; for the query [(1, 0.5)] the
    chunk of [y.pdf] has the highest score. *)

Definition stored (i : DocId) (f : string) (e : list Js.number) : ChunkDoc :=
  {| chunk_doc_id := i;
     chunk_doc_text := "text";
     chunk_doc_embedding := e;
     chunk_doc_metadata := ChunkMetadata.mk f "legal" None;
     chunk_doc_created_at := 0%Z |}.

Definition corpus : list ChunkDoc :=
  [stored 0 "x.pdf" [1; 0]%float; stored 1 "y.pdf" [1; 1]%float; stored 2 "x.pdf" [0; 1]%float].

Definition ragged : list ChunkDoc :=
  [stored 0 "x.pdf" [1]%float; stored 1 "x.pdf" [1; 0]%float].

Definition with_empty : list ChunkDoc :=
  [stored 0 "x.pdf" []; stored 1 "x.pdf" [1; 0]%float].

Definition world_of (docs : list ChunkDoc) : World :=
  {| store := {| reachable := true; next_id := length docs;
                 document_chunks := docs; documents := [] |};
     console := [] |}.

Definition offline (w : World) : World :=
  {| store := {| reachable := false; next_id := next_id (store w);
                 document_chunks := document_chunks (store w);
                 documents := documents (store w) |};
     console := console w |}.

Definition query : list Js.number := [1; 0.5]%float.

Definition filenames (cs : list Chunk.t) : list string :=
  map (fun c => ChunkMetadata.filename (Chunk.metadata c)) cs.

Definition ids (cs : list Chunk.t) : list (option DocId) := map Chunk.id cs.

Definition contract : DocumentMetadata.t :=
  DocumentMetadata.mk "3a7bd3e2" "x.pdf" "legal" None None.

Definition contract_chunks : list Chunk.t :=
  [Chunk.mk None "clause one" [1; 0]%float
     (ChunkMetadata.mk "x.pdf" "legal" (Some (Js.defined 1%Z)));
   Chunk.mk None "clause two" [0; 1]%float
     (ChunkMetadata.mk "x.pdf" "legal" (Some (Js.defined 2%Z)))].


(** A record and a chunk with a key present and [undefined]. *)
Definition unsummarised : DocumentMetadata.t :=
  DocumentMetadata.mk "3a7bd3e2" "x.pdf" "legal" (Some Js.undefined) None.

Definition unpaged : Chunk.t :=
  Chunk.mk None "clause three" [1; 1]%float
    (ChunkMetadata.mk "x.pdf" "legal" (Some Js.undefined)).

(** The world after a first ingestion of [contract] into an empty store. *)
Definition ingested_once : World :=
  snd (ingest 1000%Z contract contract_chunks (world_of [])).

(** Four chunks of which the first and the third score the same for
    [query]: their embeddings differ by a factor of 2. *)
Definition twins : list ChunkDoc :=
  [stored 0 "x.pdf" [0; 1]%float; stored 1 "x.pdf" [2; 1]%float;
   stored 2 "y.pdf" [0; 2]%float; stored 3 "y.pdf" [1; 0.5]%float].

(** * Facts about binary64 arithmetic

    Everything below follows from the specification of the primitive
    operations ([FloatAxioms]) by case analysis on the decoded operands. *)

Module Float64.

Lemma mul_nan_l (x : float) : (nan * x)%float = nan.
Proof. apply Prim2SF_inj. now rewrite mul_spec. Qed.

Lemma mul_nan_r (x : float) : (x * nan)%float = nan.
Proof. apply Prim2SF_inj. rewrite mul_spec. now destruct (Prim2SF x). Qed.

Lemma add_nan_l (x : float) : (nan + x)%float = nan.
Proof. apply Prim2SF_inj. now rewrite add_spec. Qed.

Lemma add_nan_r (x : float) : (x + nan)%float = nan.
Proof. apply Prim2SF_inj. rewrite add_spec. now destruct (Prim2SF x). Qed.

Lemma div_nan_l (x : float) : (nan / x)%float = nan.
Proof. apply Prim2SF_inj. now rewrite div_spec. Qed.

Lemma div_nan_r (x : float) : (x / nan)%float = nan.
Proof. apply Prim2SF_inj. rewrite div_spec. now destruct (Prim2SF x). Qed.

(** The two zeros are the only values equal to zero. *)
Lemma eqb_zero (x : float) :
  PrimFloat.eqb x zero = true -> x = zero \/ x = neg_zero.
Proof.
  rewrite FloatAxioms.eqb_spec. intro H.
  destruct (Prim2SF x) as [[|]|[|]| |[|] m e] eqn:E; try discriminate.
  - right. apply Prim2SF_inj. now rewrite E.
  - left. apply Prim2SF_inj. now rewrite E.
Qed.

Lemma square_of_zero (x : float) :
  PrimFloat.eqb x zero = true -> (zero + x * x)%float = zero.
Proof. intro H. destruct (eqb_zero H) as [-> | ->]; reflexivity. Qed.

(** ** Rounding keeps the sign of a non-zero value *)

Section Rounding.
Variables prec emax : Z.
Hypothesis prec_pos : (0 < prec)%Z.
Local Open Scope Z_scope.

Local Abbreviation emin := (SpecFloat.emin prec emax).
Local Abbreviation fexp := (SpecFloat.fexp prec emax).

Lemma digits2_bounds (m : positive) :
  2 ^ (Z.pos (digits2_pos m) - 1) <= Z.pos m < 2 ^ Z.pos (digits2_pos m).
Proof.
  induction m as [p IH | p IH |]; cbn [digits2_pos].
  - rewrite Pos2Z.inj_succ, Z.pow_succ_r by lia.
    replace (Z.succ (Z.pos (digits2_pos p)) - 1) with (Z.succ (Z.pos (digits2_pos p) - 1)) by lia.
    rewrite Z.pow_succ_r by lia. lia.
  - rewrite Pos2Z.inj_succ, Z.pow_succ_r by lia.
    replace (Z.succ (Z.pos (digits2_pos p)) - 1) with (Z.succ (Z.pos (digits2_pos p) - 1)) by lia.
    rewrite Z.pow_succ_r by lia. lia.
  - cbn. lia.
Qed.

Lemma shr_1_keeps (r : shr_record) (k : Z) :
  0 <= k -> 2 ^ (k + 1) <= shr_m r -> 2 ^ k <= shr_m (shr_1 r).
Proof.
  intros Hk H. rewrite Z.pow_add_r, Z.pow_1_r in H by lia.
  assert (0 < 2 ^ k) by (apply Z.pow_pos_nonneg; lia).
  destruct r as [m b s]. cbn [shr_m] in H.
  destruct m as [|[p|p|]|p]; cbn; lia.
Qed.

Lemma iter_shr_1_keeps (p : positive) : forall (r : shr_record) (k : Z),
  0 <= k -> 2 ^ (Z.pos p + k) <= shr_m r -> 2 ^ k <= shr_m (SpecFloat.iter_pos shr_1 p r).
Proof.
  induction p as [p IH | p IH |]; intros r k Hk H; cbn [SpecFloat.iter_pos].
  - apply IH; [lia|]. apply IH; [lia|]. apply shr_1_keeps; [lia|].
    replace (Z.pos p + (Z.pos p + k) + 1) with (Z.pos p~1 + k) by lia. exact H.
  - apply IH; [lia|]. apply IH; [lia|].
    replace (Z.pos p + (Z.pos p + k)) with (Z.pos p~0 + k) by lia. exact H.
  - apply shr_1_keeps; [lia|]. now rewrite Z.add_comm.
Qed.

Lemma shr_m_of_loc (m : Z) (l : location) : shr_m (shr_record_of_loc m l) = m.
Proof. destruct l as [|[| |]]; reflexivity. Qed.

(** Shifting a positive mantissa to its format exponent never empties it. *)
Lemma shr_fexp_keeps (m : positive) (e : Z) (l : location) :
  emin <= e ->
  1 <= shr_m (fst (shr_fexp prec emax (Z.pos m) e l)) /\
  emin <= snd (shr_fexp prec emax (Z.pos m) e l).
Proof.
  intro He. unfold shr_fexp, shr. cbn [Zdigits2].
  pose proof (digits2_bounds m) as [Hlo _].
  destruct (fexp (Z.pos (digits2_pos m) + e) - e) as [|p|p] eqn:En;
    cbn [fst snd]; rewrite ?shr_m_of_loc; try lia.
  split; [|lia].
  change 1 with (2 ^ 0). apply iter_shr_1_keeps; [lia|].
  rewrite shr_m_of_loc. unfold SpecFloat.fexp in En.
  eapply Z.le_trans; [|exact Hlo]. apply Z.pow_le_mono_r; lia.
Qed.

Lemma round_nearest_even_ge (m : Z) (l : location) : m <= round_nearest_even m l.
Proof. destruct l as [|[| |]]; cbn; try lia. destruct (Z.even m); lia. Qed.

(** Rounding a non-zero value yields a non-zero value of the same sign
    (possibly an infinity). *)
Lemma binary_round_aux_sign (s : bool) (m : positive) (e : Z) (l : location) :
  emin <= e ->
  (exists m' e', binary_round_aux prec emax s (Z.pos m) e l = S754_finite s m' e') \/
  binary_round_aux prec emax s (Z.pos m) e l = S754_infinity s.
Proof.
  intro He. unfold binary_round_aux.
  pose proof (shr_fexp_keeps m l He) as [H1 He1].
  destruct (shr_fexp prec emax (Z.pos m) e l) as [r1 e1]. cbn [fst snd] in H1, He1.
  pose proof (round_nearest_even_ge (shr_m r1) (loc_of_shr_record r1)) as H2.
  destruct (round_nearest_even (shr_m r1) (loc_of_shr_record r1)) as [|m2|m2]; try lia.
  pose proof (shr_fexp_keeps m2 loc_Exact He1) as [H3 _].
  destruct (shr_fexp prec emax (Z.pos m2) e1 loc_Exact) as [r3 e3]. cbn [fst] in H3.
  destruct (shr_m r3) as [|m3|m3]; try lia.
  destruct (e3 <=? emax - prec); eauto.
Qed.

Lemma shl_align_exponent (m : positive) (e e' : Z) :
  emin <= e -> emin <= e' -> emin <= snd (shl_align m e e').
Proof. intros. unfold shl_align. now destruct (e' - e). Qed.

Lemma binary_round_sign (s : bool) (m : positive) (e : Z) :
  emin <= e ->
  (exists m' e', binary_round prec emax s m e = S754_finite s m' e') \/
  binary_round prec emax s m e = S754_infinity s.
Proof.
  intro He. unfold binary_round.
  pose proof (@shl_align_exponent m e (fexp (Z.pos (digits2_pos m) + e)) He) as H.
  destruct (shl_align m e (fexp (Z.pos (digits2_pos m) + e))) as [mz ez].
  apply binary_round_aux_sign. apply H. unfold SpecFloat.fexp. lia.
Qed.

(** The sign test [v < 0] on a normalised integer. *)
Lemma binary_normalize_neg (M e : Z) :
  emin <= e ->
  SFltb (binary_normalize prec emax M e false) (S754_zero false) = (M <? 0).
Proof.
  intro He. destruct M as [|m|m]; cbn [binary_normalize]; [reflexivity| |].
  - destruct (binary_round_sign false m He) as [(m' & e' & ->) | ->]; reflexivity.
  - destruct (binary_round_sign true m He) as [(m' & e' & ->) | ->]; reflexivity.
Qed.

Lemma shl_align_value (m : positive) (e e' : Z) :
  e' <= e -> Z.pos (fst (shl_align m e e')) = Z.pos m * 2 ^ (e - e').
Proof.
  intro H. unfold shl_align. destruct (e' - e) as [|d|d] eqn:E; cbn [fst]; try lia.
  - replace (e - e') with 0 by lia. lia.
  - replace (e - e') with (Z.pos d) by lia.
    rewrite Pos.iter_swap_gen with (f := Z.pos) (h := Z.mul 2) by reflexivity.
    clear. induction d as [|d IH] using Pos.peano_ind.
    + cbn. lia.
    + rewrite Pos.iter_succ, IH, Pos2Z.inj_succ, Z.pow_succ_r by lia. lia.
Qed.
End Rounding.

Section Subtraction.
Variables prec emax : Z.
Hypothesis prec_pos : (0 < prec)%Z.
Local Open Scope Z_scope.

Local Abbreviation emin := (SpecFloat.emin prec emax).
Local Abbreviation fexp := (SpecFloat.fexp prec emax).

Lemma bounded_digits (m : positive) (e : Z) :
  SpecFloat.bounded prec emax m e = true ->
  emin <= e /\ Z.pos (digits2_pos m) <= prec /\
  (emin < e -> Z.pos (digits2_pos m) = prec).
Proof.
  unfold SpecFloat.bounded, canonical_mantissa, SpecFloat.fexp. intro H.
  apply andb_prop in H as [H _]. apply Z.eqb_eq in H. lia.
Qed.

(** Of two canonical mantissas, the one with the larger exponent is the
    larger number. *)
Lemma magnitude_lt (mx my : positive) (ex ey : Z) :
  SpecFloat.bounded prec emax mx ex = true -> SpecFloat.bounded prec emax my ey = true ->
  ex < ey -> Z.pos mx < Z.pos my * 2 ^ (ey - ex).
Proof.
  intros Hx Hy Hlt.
  apply bounded_digits in Hx as (Hex & Hdx & _).
  apply bounded_digits in Hy as (_ & _ & Hdy). specialize (Hdy ltac:(lia)).
  pose proof (digits2_bounds mx) as [_ Hmx].
  pose proof (digits2_bounds my) as [Hmy _]. rewrite Hdy in Hmy.
  assert (H1 : 2 ^ Z.pos (digits2_pos mx) <= 2 ^ prec) by (apply Z.pow_le_mono_r; lia).
  assert (H2 : 2 ^ 1 <= 2 ^ (ey - ex)) by (apply Z.pow_le_mono_r; lia).
  assert (H3 : 2 ^ prec = 2 * 2 ^ (prec - 1)).
  { rewrite <- Z.pow_succ_r by lia. f_equal. lia. }
  assert (H4 : 0 < 2 ^ (prec - 1)) by (apply Z.pow_pos_nonneg; lia).
  rewrite Z.pow_1_r in H2. nia.
Qed.

Lemma finite_ltb (sx sy : bool) (mx my : positive) (ex ey : Z) :
  SpecFloat.bounded prec emax mx ex = true -> SpecFloat.bounded prec emax my ey = true ->
  SFltb (S754_finite sx mx ex) (S754_finite sy my ey) =
  (aligned sx mx ex (Z.min ex ey) <? aligned sy my ey (Z.min ex ey)).
Proof.
  intros Hx Hy. unfold aligned.
  rewrite !shl_align_value by lia.
  assert (Hpx : 0 < Z.pos mx * 2 ^ (ex - Z.min ex ey)).
  { apply Z.mul_pos_pos; [lia | apply Z.pow_pos_nonneg; lia]. }
  assert (Hpy : 0 < Z.pos my * 2 ^ (ey - Z.min ex ey)).
  { apply Z.mul_pos_pos; [lia | apply Z.pow_pos_nonneg; lia]. }
  assert (Hmag : match ex ?= ey with
                 | Lt => Z.pos mx * 2 ^ (ex - Z.min ex ey) < Z.pos my * 2 ^ (ey - Z.min ex ey)
                 | Gt => Z.pos my * 2 ^ (ey - Z.min ex ey) < Z.pos mx * 2 ^ (ex - Z.min ex ey)
                 | Eq => Z.pos mx * 2 ^ (ex - Z.min ex ey) = Z.pos mx /\
                         Z.pos my * 2 ^ (ey - Z.min ex ey) = Z.pos my
                 end).
  { destruct (Z.compare_spec ex ey) as [E | L | G].
    - subst. rewrite Z.min_id, Z.sub_diag. cbn [Z.pow]. lia.
    - rewrite Z.min_l by lia. rewrite Z.sub_diag, Z.pow_0_r, Z.mul_1_r.
      now apply magnitude_lt.
    - rewrite Z.min_r by lia. rewrite Z.sub_diag, Z.pow_0_r, Z.mul_1_r.
      now apply magnitude_lt. }
  unfold SFltb, SFcompare, cond_Zopp.
  change (Pos.compare_cont Eq mx my) with (Pos.compare mx my).
  destruct (ex ?= ey).
  - destruct Hmag as [Ex Ey]. rewrite Ex, Ey.
    destruct sx, sy, (Pos.compare_spec mx my); cbn [CompOpp];
      symmetry; first [apply Z.ltb_lt; lia | apply Z.ltb_ge; lia].
  - destruct sx, sy; symmetry; first [apply Z.ltb_lt; lia | apply Z.ltb_ge; lia].
  - destruct sx, sy; symmetry; first [apply Z.ltb_lt; lia | apply Z.ltb_ge; lia].
Qed.

(** On values that are not [NaN], [x - y] is negative exactly when
    [x < y]: a difference of two distinct numbers never rounds to zero. *)
Lemma SFsub_negative (x y : spec_float) :
  SpecFloat.valid_binary prec emax x = true -> SpecFloat.valid_binary prec emax y = true ->
  x <> S754_nan -> y <> S754_nan ->
  SFltb (SFsub prec emax x y) (S754_zero false) = SFltb x y.
Proof.
  intros Vx Vy Nx Ny.
  destruct x as [sx|sx| |sx mx ex], y as [sy|sy| |sy my ey];
    try contradiction; try (now destruct sx, sy); try (now destruct sx); try (now destruct sy).
  cbn [SpecFloat.valid_binary] in Vx, Vy. unfold SFsub.
  rewrite binary_normalize_neg.
  - rewrite finite_ltb by assumption. unfold aligned.
    match goal with |- (?a - ?b <? 0) = (?a <? ?b) =>
      destruct (Z.ltb_spec (a - b) 0), (Z.ltb_spec a b); lia end.
  - exact prec_pos.
  - apply bounded_digits in Vx, Vy. lia.
Qed.
End Subtraction.

Lemma sub_negative (x y : float) :
  is_nan x = false -> is_nan y = false ->
  ((x - y) <? 0)%float = (x <? y)%float.
Proof.
  intros Hx Hy. rewrite !ltb_spec, sub_spec.
  change (Prim2SF 0) with (S754_zero false).
  apply SFsub_negative; try apply Prim2SF_valid; try reflexivity.
  - intro E. unfold is_nan in Hx. rewrite FloatAxioms.eqb_spec, E in Hx. discriminate.
  - intro E. unfold is_nan in Hy. rewrite FloatAxioms.eqb_spec, E in Hy. discriminate.
Qed.

Section Order.
Local Open Scope Z_scope.

Lemma SFcompare_rank (x y : spec_float) :
  x <> S754_nan -> y <> S754_nan ->
  match SFcompare x y with
  | Some Lt => rank_lt (rank_of x) (rank_of y)
  | Some Eq => rank_of x = rank_of y
  | Some Gt => rank_lt (rank_of y) (rank_of x)
  | None => False
  end.
Proof.
  intros Nx Ny.
  destruct x as [sx|sx| |sx mx ex], y as [sy|sy| |sy my ey]; try contradiction;
    try (destruct sx; cbn; lia); try (destruct sy; cbn; lia);
    try (destruct sx, sy; cbn; (reflexivity || lia)).
  unfold SFcompare. change (Pos.compare_cont Eq mx my) with (Pos.compare mx my).
  destruct sx, sy; try (cbn; lia);
    destruct (Z.compare_spec ex ey); try (cbn; lia);
    destruct (Pos.compare_spec mx my); subst; cbn; try reflexivity; lia.
Qed.
End Order.

Lemma not_nan_decoded (x : float) : is_nan x = false -> Prim2SF x <> S754_nan.
Proof.
  intros H E. unfold is_nan in H. rewrite FloatAxioms.eqb_spec, E in H. discriminate.
Qed.

Lemma ltb_false_leb (x y : float) :
  is_nan x = false -> is_nan y = false -> (x <? y)%float = false -> (y <=? x)%float = true.
Proof.
  intros Hx Hy. rewrite ltb_spec, leb_spec. unfold SFltb, SFleb.
  pose proof (SFcompare_rank (not_nan_decoded _ Hx) (not_nan_decoded _ Hy)) as H1.
  pose proof (SFcompare_rank (not_nan_decoded _ Hy) (not_nan_decoded _ Hx)) as H2.
  destruct (SFcompare (Prim2SF x) (Prim2SF y)) as [[| |]|],
           (SFcompare (Prim2SF y) (Prim2SF x)) as [[| |]|]; try easy;
    unfold rank_lt in *; destruct (rank_of (Prim2SF x)) as [[? ?] ?], (rank_of (Prim2SF y)) as [[? ?] ?];
    intros _; try reflexivity; exfalso; try (injection H1 as ? ? ?); lia.
Qed.

Lemma ltb_leb (x y : float) :
  (x <? y)%float = true -> (x <=? y)%float = true.
Proof.
  rewrite ltb_spec, leb_spec. unfold SFltb, SFleb.
  now destruct (SFcompare (Prim2SF x) (Prim2SF y)) as [[| |]|].
Qed.

Lemma leb_trans (x y z : float) :
  (x <=? y)%float = true -> (y <=? z)%float = true -> (x <=? z)%float = true.
Proof.
  rewrite !leb_spec. unfold SFleb.
  destruct (SFcompare (Prim2SF x) (Prim2SF y)) as [[| |]|] eqn:Exy; try discriminate;
  destruct (SFcompare (Prim2SF y) (Prim2SF z)) as [[| |]|] eqn:Eyz; try discriminate;
  intros _ _.
  all: assert (Nx : Prim2SF x <> S754_nan) by (intro E; rewrite E in Exy; discriminate).
  all: assert (Ny : Prim2SF y <> S754_nan) by (intro E; rewrite E in Eyz; discriminate).
  all: assert (Nz : Prim2SF z <> S754_nan)
    by (intro E; rewrite E in Eyz; destruct (Prim2SF y); discriminate).
  all: pose proof (SFcompare_rank Nx Ny) as H1; rewrite Exy in H1.
  all: pose proof (SFcompare_rank Ny Nz) as H2; rewrite Eyz in H2.
  all: pose proof (SFcompare_rank Nx Nz) as H3.
  all: destruct (SFcompare (Prim2SF x) (Prim2SF z)) as [[| |]|]; try reflexivity; try contradiction.
  all: exfalso; unfold rank_lt in *;
    destruct (rank_of (Prim2SF x)) as [[? ?] ?], (rank_of (Prim2SF y)) as [[? ?] ?],
             (rank_of (Prim2SF z)) as [[? ?] ?];
    try (injection H1 as ? ? ?); try (injection H2 as ? ? ?); lia.
Qed.

(** ** Rounding error *)

Lemma bpow_pos (e : Z) : (0 < bpow e)%R.
Proof. apply powerRZ_lt. lra. Qed.

Lemma bpow_add (a b : Z) : bpow (a + b) = (bpow a * bpow b)%R.
Proof. apply powerRZ_add. lra. Qed.

Lemma bpow_IZR (k : Z) : (0 <= k)%Z -> bpow k = IZR (2 ^ k).
Proof.
  intro Hk. unfold bpow. destruct k as [|p|p]; [reflexivity | | lia].
  symmetry. apply (Zpower_pos_powerRZ 2 p).
Qed.

Lemma bpow_le (a b : Z) : (a <= b)%Z -> (bpow a <= bpow b)%R.
Proof.
  intro H. replace b with (a + (b - a))%Z by lia. rewrite bpow_add.
  rewrite (bpow_IZR (k := b - a)) by lia.
  assert (1 <= IZR (2 ^ (b - a)))%R.
  { apply IZR_le. assert (0 < 2 ^ (b - a))%Z by (apply Z.pow_pos_nonneg; lia). lia. }
  pose proof (bpow_pos a). nra.
Qed.

Lemma bpow_lt_inv (a b : Z) : (bpow a < bpow b)%R -> (a < b)%Z.
Proof.
  intro H. destruct (Z.lt_ge_cases a b) as [L | G]; [exact L|].
  apply bpow_le in G. lra.
Qed.

Lemma bpow_lt (a b : Z) : (a < b)%Z -> (bpow a < bpow b)%R.
Proof.
  intro H. replace b with (a + (b - a))%Z by lia. rewrite bpow_add.
  rewrite (bpow_IZR (k := b - a)) by lia.
  assert (2 <= IZR (2 ^ (b - a)))%R.
  { apply IZR_le. replace (b - a)%Z with (Z.succ (b - a - 1)) by lia.
    rewrite Z.pow_succ_r by lia.
    assert (0 < 2 ^ (b - a - 1))%Z by (apply Z.pow_pos_nonneg; lia). lia. }
  pose proof (bpow_pos a). nra.
Qed.

Lemma bpow_le_inv (a b : Z) : (bpow a <= bpow b)%R -> (a <= b)%Z.
Proof.
  intro H. destruct (Z.le_gt_cases a b) as [L | G]; [exact L|].
  apply bpow_lt in G. lra.
Qed.

Lemma F2R_pos (m : positive) (e : Z) : (0 < F2R m e)%R.
Proof.
  unfold F2R. apply Rmult_lt_0_compat; [apply IZR_lt; lia | apply bpow_pos].
Qed.

Lemma F2R_bounds (m : positive) (e : Z) :
  (bpow (Z.pos (digits2_pos m) + e - 1) <= F2R m e < bpow (Z.pos (digits2_pos m) + e))%R.
Proof.
  pose proof (digits2_bounds m) as [Hlo Hhi]. unfold F2R.
  replace (Z.pos (digits2_pos m) + e - 1)%Z with ((Z.pos (digits2_pos m) - 1) + e)%Z by lia.
  rewrite !bpow_add.
  rewrite (bpow_IZR (k := Z.pos (digits2_pos m) - 1)) by lia.
  rewrite (bpow_IZR (k := Z.pos (digits2_pos m))) by lia.
  apply IZR_le in Hlo. apply IZR_lt in Hhi. pose proof (bpow_pos e). split; nra.
Qed.

Section Truncation.
Variables prec emax : Z.
Hypothesis prec_pos : (0 < prec)%Z.
Local Open Scope Z_scope.

Local Abbreviation emin := (SpecFloat.emin prec emax).
Local Abbreviation fexp := (SpecFloat.fexp prec emax).

Lemma digits2_unique (m : positive) (j : Z) :
  2 ^ (j - 1) <= Z.pos m < 2 ^ j -> Z.pos (digits2_pos m) = j.
Proof.
  intros [Hlo Hhi]. pose proof (digits2_bounds m) as [Dlo Dhi].
  destruct (Z.lt_trichotomy (Z.pos (digits2_pos m)) j) as [L | [E | G]]; [|exact E|].
  - assert (2 ^ Z.pos (digits2_pos m) <= 2 ^ (j - 1)) by (apply Z.pow_le_mono_r; lia). lia.
  - destruct (Z.le_gt_cases 0 j).
    + assert (2 ^ j <= 2 ^ (Z.pos (digits2_pos m) - 1)) by (apply Z.pow_le_mono_r; lia). lia.
    + rewrite Z.pow_neg_r in Hhi by lia. lia.
Qed.

Lemma shr_1_half (r : shr_record) : 0 <= shr_m r -> shr_m (shr_1 r) = shr_m r / 2.
Proof.
  destruct r as [m b s]. cbn [shr_m]. intro H.
  destruct m as [|[p|p|]|p]; cbn [shr_1 shr_m].
  all: try lia. all: try reflexivity.
  - change (Z.pos p~1) with (2 * Z.pos p + 1).
    apply Z.div_unique with 1; lia.
  - change (Z.pos p~0) with (2 * Z.pos p).
    apply Z.div_unique with 0; lia.
Qed.

Lemma shr_m_iter (p : positive) : forall r : shr_record,
  0 <= shr_m r -> shr_m (SpecFloat.iter_pos shr_1 p r) = shr_m r / 2 ^ Z.pos p.
Proof.
  assert (Hnn : forall q r, 0 <= shr_m r -> 0 <= shr_m (SpecFloat.iter_pos shr_1 q r)
                 /\ shr_m (SpecFloat.iter_pos shr_1 q r) = shr_m r / 2 ^ Z.pos q).
  { induction q as [q IH | q IH |]; intros r Hr; cbn [SpecFloat.iter_pos].
    - assert (H1 : 0 <= shr_m (shr_1 r)) by (rewrite shr_1_half by lia; apply Z.div_pos; lia).
      destruct (IH _ H1) as [H2 E2]. destruct (IH _ H2) as [H3 E3].
      split; [exact H3|]. rewrite E3, E2, shr_1_half by lia.
      rewrite !Z.div_div by (try apply Z.pow_pos_nonneg; lia).
      f_equal. change (Z.pos q~1) with (2 * Z.pos q + 1).
      replace (2 * Z.pos q + 1) with (1 + Z.pos q + Z.pos q) by lia.
      rewrite !Z.pow_add_r by lia. lia.
    - destruct (IH _ Hr) as [H2 E2]. destruct (IH _ H2) as [H3 E3].
      split; [exact H3|]. rewrite E3, E2.
      rewrite !Z.div_div by (try apply Z.pow_pos_nonneg; lia).
      f_equal. change (Z.pos q~0) with (2 * Z.pos q).
      replace (2 * Z.pos q) with (Z.pos q + Z.pos q) by lia.
      rewrite !Z.pow_add_r by lia. lia.
    - rewrite shr_1_half by lia. split; [apply Z.div_pos; lia | reflexivity]. }
  intros r Hr. now apply Hnn.
Qed.

(** Shifting by the distance to the format exponent divides the mantissa. *)
Lemma shr_fexp_exact (m : positive) (e : Z) (l : location) :
  let D := Z.pos (digits2_pos m) in
  prec <= D -> emin <= D + e - prec ->
  shr_m (fst (shr_fexp prec emax (Z.pos m) e l)) = Z.pos m / 2 ^ (D - prec) /\
  snd (shr_fexp prec emax (Z.pos m) e l) = D + e - prec.
Proof.
  intros D HD He. unfold shr_fexp, shr. cbn [Zdigits2]. fold D.
  assert (E : fexp (D + e) - e = D - prec) by (unfold SpecFloat.fexp; lia).
  rewrite E. destruct (D - prec) as [|p|p] eqn:Ep; cbn [fst snd]; try lia.
  - rewrite shr_m_of_loc, Z.pow_0_r, Z.div_1_r. lia.
  - rewrite shr_m_iter by (rewrite shr_m_of_loc; lia). rewrite shr_m_of_loc. lia.
Qed.

Lemma truncated_range (m : positive) :
  let D := Z.pos (digits2_pos m) in
  prec <= D ->
  2 ^ (prec - 1) <= Z.pos m / 2 ^ (D - prec) < 2 ^ prec.
Proof.
  intros D HD. pose proof (digits2_bounds m) as [Hlo Hhi]. fold D in Hlo, Hhi.
  assert (Hk : 0 < 2 ^ (D - prec)) by (apply Z.pow_pos_nonneg; lia).
  assert (E1 : 2 ^ (D - 1) = 2 ^ (prec - 1) * 2 ^ (D - prec)).
  { rewrite <- Z.pow_add_r by lia. f_equal. lia. }
  assert (E2 : 2 ^ D = 2 ^ prec * 2 ^ (D - prec)).
  { rewrite <- Z.pow_add_r by lia. f_equal. lia. }
  split.
  - apply Z.div_le_lower_bound; lia.
  - apply Z.div_lt_upper_bound; lia.
Qed.

Lemma round_nearest_even_le (m : Z) (l : location) : round_nearest_even m l <= m + 1.
Proof. destruct l as [|[| |]]; cbn; try lia. destruct (Z.even m); lia. Qed.

(** Rounding a mantissa of at least [prec] digits, away from the subnormal
    range and from overflow: the result is a normal number between the
    truncation of the mantissa and its successor. *)
Lemma binary_round_aux_bounds (s : bool) (m : positive) (e : Z) (l : location) :
  let D := Z.pos (digits2_pos m) in
  let t := Z.pos m / 2 ^ (D - prec) in
  prec <= D -> emin <= D + e - prec -> D + e <= emax - 1 ->
  exists m3 e3,
    binary_round_aux prec emax s (Z.pos m) e l = S754_finite s m3 e3 /\
    Z.pos (digits2_pos m3) = prec /\
    (IZR t * bpow (D + e - prec) <= IZR (Z.pos m3) * bpow e3
       <= (IZR t + 1) * bpow (D + e - prec))%R.
Proof.
  intros D t HD He Hmax. unfold binary_round_aux.
  destruct (shr_fexp_exact m e l HD He) as [E1 E2]. fold D in E1, E2. fold t in E1.
  destruct (shr_fexp prec emax (Z.pos m) e l) as [r1 e1]. cbn [fst snd] in E1, E2.
  pose proof (truncated_range m HD) as Ht. fold D in Ht. fold t in Ht.
  pose proof (round_nearest_even_ge (shr_m r1) (loc_of_shr_record r1)) as Hge.
  pose proof (round_nearest_even_le (shr_m r1) (loc_of_shr_record r1)) as Hle.
  assert (Hpp : 0 < 2 ^ (prec - 1)) by (apply Z.pow_pos_nonneg; lia).
  assert (Hp2 : 2 ^ prec = 2 * 2 ^ (prec - 1)).
  { rewrite <- Z.pow_succ_r by lia. f_equal. lia. }
  destruct (round_nearest_even (shr_m r1) (loc_of_shr_record r1)) as [|p2|p2]; try lia.
  pose proof (bpow_pos e1) as Hb. rewrite <- E2.
  destruct (Z.lt_ge_cases (Z.pos p2) (2 ^ prec)) as [Hlt | Hge2].
  - assert (D2 : Z.pos (digits2_pos p2) = prec) by (apply digits2_unique; lia).
    destruct (@shr_fexp_exact p2 e1 loc_Exact) as [E3 E4]; try lia.
    destruct (shr_fexp prec emax (Z.pos p2) e1 loc_Exact) as [r3 e3]. cbn [fst snd] in E3, E4.
    rewrite D2, Z.sub_diag, Z.pow_0_r, Z.div_1_r in E3. rewrite E3.
    assert (Ee : e3 = e1) by lia. clear E4. subst e3.
    replace (e1 <=? emax - prec) with true by (symmetry; apply Z.leb_le; lia).
    exists p2, e1. split; [reflexivity|]. split; [exact D2|].
    assert (IZR t <= IZR (Z.pos p2) <= IZR t + 1)%R.
    { split; [apply IZR_le; lia|]. rewrite <- plus_IZR. apply IZR_le. lia. }
    nra.
  - assert (Ep2 : Z.pos p2 = 2 ^ prec) by lia.
    assert (D2 : Z.pos (digits2_pos p2) = prec + 1).
    { apply digits2_unique. replace (prec + 1 - 1) with prec by lia.
      rewrite Z.pow_add_r, Z.pow_1_r by lia. lia. }
    destruct (@shr_fexp_exact p2 e1 loc_Exact) as [E3 E4]; try lia.
    destruct (shr_fexp prec emax (Z.pos p2) e1 loc_Exact) as [r3 e3]. cbn [fst snd] in E3, E4.
    replace (Z.pos (digits2_pos p2) - prec) with 1 in E3 by lia.
    rewrite Z.pow_1_r, Ep2, Hp2 in E3.
    replace (2 * 2 ^ (prec - 1) / 2) with (2 ^ (prec - 1)) in E3
      by (apply Z.div_unique with 0; lia).
    destruct (shr_m r3) as [|m3|m3]; try lia.
    assert (Ee : e3 = e1 + 1) by lia. clear E4. subst e3.
    replace (e1 + 1 <=? emax - prec) with true by (symmetry; apply Z.leb_le; lia).
    exists m3, (e1 + 1). split; [reflexivity|]. split; [apply digits2_unique; lia|].
    rewrite bpow_add. replace (bpow 1) with 2%R by (unfold bpow; simpl; lra).
    assert (Et : (IZR t + 1 = 2 * IZR (Z.pos m3))%R).
    { rewrite <- plus_IZR, E3, <- mult_IZR. f_equal. lia. }
    assert (0 < IZR (Z.pos m3))%R by (apply IZR_lt; lia).
    nra.
Qed.

(** The same, as an interval: the value rounded and its rounding lie in one
    interval [[T, T + U]] whose width is at most [2^(1-prec)] times [T]. *)
Lemma binary_round_aux_near (s : bool) (m : positive) (e : Z) (l : location) :
  let D := Z.pos (digits2_pos m) in
  prec <= D -> emin <= D + e - prec -> D + e <= emax - 1 ->
  exists m3 e3 T U,
    binary_round_aux prec emax s (Z.pos m) e l = S754_finite s m3 e3 /\
    Z.pos (digits2_pos m3) = prec /\
    (0 < T /\ 0 < U <= bpow (1 - prec) * T)%R /\
    (forall x, IZR (Z.pos m) * bpow e <= x <= (IZR (Z.pos m) + 1) * bpow e ->
               T <= x <= T + U)%R /\
    (T <= F2R m3 e3 <= T + U)%R.
Proof.
  intros D HD He Hmax.
  destruct (binary_round_aux_bounds s m e l HD He Hmax) as (m3 & e3 & E & D3 & Hb).
  fold D in Hb. set (t := Z.pos m / 2 ^ (D - prec)) in *.
  pose proof (truncated_range m HD) as Ht. fold D in Ht. fold t in Ht.
  assert (Hk : 0 < 2 ^ (D - prec)) by (apply Z.pow_pos_nonneg; lia).
  assert (Hpp : 0 < 2 ^ (prec - 1)) by (apply Z.pow_pos_nonneg; lia).
  exists m3, e3, (IZR t * bpow (D + e - prec))%R, (bpow (D + e - prec)).
  pose proof (bpow_pos (D + e - prec)) as HU.
  assert (Ht1 : (IZR (2 ^ (prec - 1)) <= IZR t)%R) by (apply IZR_le; lia).
  assert (Hpp' : (0 < IZR (2 ^ (prec - 1)))%R) by (apply IZR_lt; lia).
  split; [exact E|]. split; [exact D3|]. split; [|split].
  - split; [nra|]. split; [exact HU|].
    assert (Eone : (bpow (1 - prec) * IZR (2 ^ (prec - 1)) = 1)%R).
    { rewrite <- bpow_IZR by lia. rewrite <- bpow_add.
      replace (1 - prec + (prec - 1)) with 0 by lia. reflexivity. }
    pose proof (bpow_pos (1 - prec)) as He1.
    assert (H1 : (1 <= bpow (1 - prec) * IZR t)%R).
    { rewrite <- Eone. apply Rmult_le_compat_l; lra. }
    replace (bpow (1 - prec) * (IZR t * bpow (D + e - prec)))%R
      with ((bpow (1 - prec) * IZR t) * bpow (D + e - prec))%R by ring.
    rewrite <- (Rmult_1_l (bpow (D + e - prec))) at 1.
    apply Rmult_le_compat_r; lra.
  - intros x [Hx1 Hx2].
    assert (Em : (bpow (D + e - prec) = bpow e * IZR (2 ^ (D - prec)))%R).
    { rewrite <- bpow_IZR, <- bpow_add by lia. f_equal. lia. }
    assert (Hm1 : 2 ^ (D - prec) * t <= Z.pos m) by (apply Z.mul_div_le; lia).
    assert (Hm2 : Z.pos m < 2 ^ (D - prec) * Z.succ t) by (apply Z.mul_succ_div_gt; lia).
    assert (Hm1' : (IZR (2 ^ (D - prec)) * IZR t <= IZR (Z.pos m))%R)
      by (rewrite <- mult_IZR; apply IZR_le; lia).
    assert (Hm2' : (IZR (Z.pos m) + 1 <= IZR (2 ^ (D - prec)) * (IZR t + 1))%R).
    { rewrite <- !plus_IZR, <- mult_IZR. apply IZR_le. lia. }
    pose proof (bpow_pos e) as He0. rewrite Em. split.
    + apply Rle_trans with (IZR (Z.pos m) * bpow e)%R; [|exact Hx1].
      apply Rle_trans with ((IZR (2 ^ (D - prec)) * IZR t) * bpow e)%R; [lra|].
      apply Rmult_le_compat_r; lra.
    + apply Rle_trans with ((IZR (Z.pos m) + 1) * bpow e)%R; [exact Hx2|].
      apply Rle_trans with ((IZR (2 ^ (D - prec)) * (IZR t + 1)) * bpow e)%R; [|lra].
      apply Rmult_le_compat_r; lra.
  - unfold F2R. lra.
Qed.

(** ** From the primitive operations to the real line *)

Lemma F2R_aligned (m : positive) (e ez : Z) :
  (ez <= e)%Z -> F2R m e = (IZR (aligned false m e ez) * bpow ez)%R.
Proof.
  intro H. unfold F2R, aligned, cond_Zopp. rewrite shl_align_value by exact H.
  rewrite mult_IZR, <- bpow_IZR, Rmult_assoc, <- bpow_add by lia.
  do 2 f_equal. lia.
Qed.

Lemma SFleb_F2R (m1 m2 : positive) (e1 e2 : Z) :
  SpecFloat.bounded prec emax m1 e1 = true -> SpecFloat.bounded prec emax m2 e2 = true ->
  SFleb (S754_finite false m1 e1) (S754_finite false m2 e2) = true ->
  (F2R m1 e1 <= F2R m2 e2)%R.
Proof.
  intros B1 B2 H.
  assert (Hlt : SFltb (S754_finite false m2 e2) (S754_finite false m1 e1) = false).
  { unfold SFleb, SFltb, SFcompare in *.
    change (Pos.compare_cont Eq m1 m2) with (Pos.compare m1 m2) in H.
    change (Pos.compare_cont Eq m2 m1) with (Pos.compare m2 m1).
    rewrite (Z.compare_antisym e1 e2), (Pos.compare_antisym m1 m2).
    destruct (e1 ?= e2)%Z; cbn [CompOpp] in *; try easy.
    destruct (m1 ?= m2)%positive; cbn [CompOpp] in *; easy. }
  rewrite (@finite_ltb prec emax prec_pos) in Hlt by assumption.
  apply Z.ltb_ge in Hlt.
  rewrite (@F2R_aligned m1 e1 (Z.min e2 e1)), (@F2R_aligned m2 e2 (Z.min e2 e1)) by lia.
  apply Rmult_le_compat_r; [apply Rlt_le, bpow_pos | now apply IZR_le].
Qed.

End Truncation.
(** ** Three roundings in a row *)

Section Chain.
Local Open Scope R_scope.
Variable eps : R.

(** A value and its rounding in one narrow interval are within a factor
    [1 + eps] of each other. *)
Lemma interval_ratio (T U x y : R) :
  0 < eps -> 0 < T -> 0 < U <= eps * T -> T <= x <= T + U -> T <= y <= T + U ->
  x <= (1 + eps) * y.
Proof. intros eps_pos HT HU Hx Hy. nra. Qed.

Lemma square_ratio (L U S N : R) :
  0 < eps -> 0 < L -> 0 < U <= eps * L -> L <= S <= L + U -> L * L <= N <= (L + U) * (L + U) ->
  N <= (1 + eps) * (1 + eps) * (S * S) /\ S * S <= (1 + eps) * (1 + eps) * N.
Proof.
  intros eps_pos HL HU HS HN.
  assert (H1 : (L + U) * (L + U) <= (1 + eps) * (1 + eps) * (L * L)).
  { assert (H0 : L + U <= (1 + eps) * L) by nra.
    replace ((1 + eps) * (1 + eps) * (L * L)) with (((1 + eps) * L) * ((1 + eps) * L)) by ring.
    apply Rmult_le_compat; nra. }
  assert (H2 : L * L <= S * S) by (apply Rmult_le_compat; nra).
  assert (H3 : S * S <= (L + U) * (L + U)) by (apply Rmult_le_compat; nra).
  assert (H4 : 0 <= (1 + eps) * (1 + eps)) by nra.
  split.
  - apply Rle_trans with ((L + U) * (L + U)); [lra|].
    apply Rle_trans with ((1 + eps) * (1 + eps) * (L * L)); [exact H1|].
    apply Rmult_le_compat_l; lra.
  - apply Rle_trans with ((L + U) * (L + U)); [lra|].
    apply Rle_trans with ((1 + eps) * (1 + eps) * (L * L)); [exact H1|].
    apply Rmult_le_compat_l; lra.
Qed.

Lemma quotient_ratio (T U N P r : R) :
  0 < eps -> 0 < P -> 0 < T -> 0 < U <= eps * T ->
  T * P <= N <= (T + U) * P -> T <= r <= T + U ->
  forall k, 0 < k -> N <= k * P -> P <= k * N ->
  r <= (1 + eps) * k /\ 1 <= (1 + eps) * k * r.
Proof.
  intros eps_pos HP HT HU HN Hr k Hk H1 H2. split.
  - assert (T <= k).
    { apply Rmult_le_reg_r with P; [exact HP|]. lra. }
    nra.
  - assert (H3 : 1 <= k * (T + U)).
    { apply Rmult_le_reg_r with P; [exact HP|].
      apply Rle_trans with (k * N); [lra|].
      replace (k * (T + U) * P) with (k * ((T + U) * P)) by ring.
      apply Rmult_le_compat_l; lra. }
    assert (H4 : T + U <= (1 + eps) * r) by nra.
    apply Rle_trans with (k * (T + U)); [exact H3|].
    replace ((1 + eps) * k * r) with (k * ((1 + eps) * r)) by ring.
    apply Rmult_le_compat_l; lra.
Qed.

End Chain.

Section Binary64.
Variables prec emax : Z.
Hypothesis Hprec : prec = 53%Z.
Hypothesis Hemax : emax = 1024%Z.
Local Open Scope Z_scope.

Local Abbreviation emin := (SpecFloat.emin prec emax).
Local Abbreviation fexp := (SpecFloat.fexp prec emax).

Lemma prec_positive : 0 < prec.
Proof. lia. Qed.

Lemma bounded_exponent (m : positive) (e : Z) :
  SpecFloat.bounded prec emax m e = true -> e <= emax - prec.
Proof. unfold SpecFloat.bounded. intro H. apply andb_prop in H as [_ H]. now apply Z.leb_le. Qed.

Lemma SFsqrt_near (m : positive) (e : Z) :
  SpecFloat.bounded prec emax m e = true ->
  exists ms es L U,
    SFsqrt prec emax (S754_finite false m e) = S754_finite false ms es /\
    Z.pos (digits2_pos ms) = prec /\
    (0 < L /\ 0 < U <= bpow (1 - prec) * L)%R /\
    (L <= F2R ms es <= L + U)%R /\
    (L * L <= F2R m e <= (L + U) * (L + U))%R.
Proof.
  intro Hb. pose proof (bounded_exponent _ _ Hb) as Hemx.
  apply bounded_digits in Hb as (Hemn & Hd & _).
  unfold SFsqrt, SFsqrt_core_binary. cbn [Zdigits2].
  set (d := Z.pos (digits2_pos m)) in *.
  assert (Hd0 : 0 < d) by (unfold d; lia).
  set (E := Z.div2 (d + e + 1)).
  assert (HE : 2 * E <= d + e + 1 <= 2 * E + 1) by (unfold E; rewrite Z.div2_div; Z.div_mod_to_equations; lia).
  unfold SpecFloat.emin in Hemn.
  assert (Ee : Z.min (fexp E) (Z.div2 e) = E - prec).
  { unfold SpecFloat.fexp, SpecFloat.emin. rewrite (Z.div2_div e).
    Z.div_mod_to_equations. lia. }
  rewrite Ee.
  pose proof (digits2_bounds m) as [Hmlo Hmhi]. fold d in Hmlo, Hmhi.
  destruct (e - 2 * (E - prec)) as [|p|p] eqn:Esh; try lia.
  rewrite Z.shiftl_mul_pow2 by lia.
  set (m' := Z.pos m * 2 ^ Z.pos p).
  assert (Hpow : 0 < 2 ^ Z.pos p) by (apply Z.pow_pos_nonneg; lia).
  assert (Hm'lo : 2 ^ (2 * prec - 2) <= m').
  { apply Z.le_trans with (2 ^ (d - 1) * 2 ^ Z.pos p); [|unfold m'; nia].
    rewrite <- Z.pow_add_r by lia. apply Z.pow_le_mono_r; lia. }
  assert (Hm'hi : m' < 2 ^ (2 * prec)).
  { apply Z.lt_le_trans with (2 ^ d * 2 ^ Z.pos p); [unfold m'; nia|].
    rewrite <- Z.pow_add_r by lia. apply Z.pow_le_mono_r; lia. }
  pose proof (Z.sqrtrem_spec m' ltac:(lia)) as Hsq.
  destruct (Z.sqrtrem m') as [q r]. destruct Hsq as [Hm' Hr].
  assert (Hsq1 : 2 ^ (2 * prec - 2) = 2 ^ (prec - 1) * 2 ^ (prec - 1)).
  { rewrite <- Z.pow_add_r by lia. f_equal. lia. }
  assert (Hsq2 : 2 ^ (2 * prec) = 2 ^ prec * 2 ^ prec).
  { rewrite <- Z.pow_add_r by lia. f_equal. lia. }
  assert (Hp1 : 0 < 2 ^ (prec - 1)) by (apply Z.pow_pos_nonneg; lia).
  assert (Hp2 : 0 < 2 ^ prec) by (apply Z.pow_pos_nonneg; lia).
  assert (Hq : 2 ^ (prec - 1) <= q < 2 ^ prec) by nia.
  destruct q as [|mq|mq]; try lia.
  assert (Dq : Z.pos (digits2_pos mq) = prec) by (apply digits2_unique; lia).
  destruct (@binary_round_aux_near prec emax prec_positive false mq (E - prec)
              (if r =? 0 then loc_Exact else loc_Inexact (if r <=? Z.pos mq then Lt else Gt)))
    as (ms & es & L & U & Er & Ds & HLU & Hx & Hs).
  { lia. } { unfold SpecFloat.emin. lia. } { lia. }
  exists ms, es, L, U. split; [exact Er|]. split; [exact Ds|]. split; [exact HLU|].
  split; [exact Hs|].
  pose proof (bpow_pos (E - prec)) as Hb.
  destruct (Hx (IZR (Z.pos mq) * bpow (E - prec))%R) as [Hx1 _]; [nra|].
  destruct (Hx ((IZR (Z.pos mq) + 1) * bpow (E - prec))%R) as [_ Hx2]; [nra|].
  assert (En : F2R m e = (IZR m' * (bpow (E - prec) * bpow (E - prec)))%R).
  { unfold F2R, m'. rewrite mult_IZR, <- bpow_IZR, <- bpow_add, Rmult_assoc, <- bpow_add by lia.
    do 2 f_equal. lia. }
  assert (Hq1 : (IZR (Z.pos mq) * IZR (Z.pos mq) <= IZR m')%R).
  { rewrite <- mult_IZR. apply IZR_le. lia. }
  assert (Hq2 : (IZR m' <= (IZR (Z.pos mq) + 1) * (IZR (Z.pos mq) + 1))%R).
  { rewrite <- plus_IZR, <- mult_IZR. apply IZR_le. lia. }
  assert (Hmq : (0 < IZR (Z.pos mq))%R) by (apply IZR_lt; lia).
  destruct HLU as (HL & HU & _). rewrite En. split.
  - apply Rle_trans with
      ((IZR (Z.pos mq) * bpow (E - prec)) * (IZR (Z.pos mq) * bpow (E - prec)))%R.
    + apply Rmult_le_compat; lra.
    + replace ((IZR (Z.pos mq) * bpow (E - prec)) * (IZR (Z.pos mq) * bpow (E - prec)))%R
        with ((IZR (Z.pos mq) * IZR (Z.pos mq)) * (bpow (E - prec) * bpow (E - prec)))%R by ring.
      apply Rmult_le_compat_r; [nra | exact Hq1].
  - apply Rle_trans with
      (((IZR (Z.pos mq) + 1) * bpow (E - prec)) * ((IZR (Z.pos mq) + 1) * bpow (E - prec)))%R.
    + replace (((IZR (Z.pos mq) + 1) * bpow (E - prec)) * ((IZR (Z.pos mq) + 1) * bpow (E - prec)))%R
        with (((IZR (Z.pos mq) + 1) * (IZR (Z.pos mq) + 1)) * (bpow (E - prec) * bpow (E - prec)))%R by ring.
      apply Rmult_le_compat_r; [nra | exact Hq2].
    + apply Rmult_le_compat; nra.
Qed.
Lemma normal_mantissa (m : positive) :
  Z.pos (digits2_pos m) = prec -> 2 ^ (prec - 1) <= Z.pos m < 2 ^ prec.
Proof. intro H. pose proof (digits2_bounds m) as Hb. now rewrite H in Hb. Qed.

Lemma F2R_mul (mx my : positive) (ex ey : Z) :
  F2R (mx * my) (ex + ey) = (F2R mx ex * F2R my ey)%R.
Proof. unfold F2R. rewrite Pos2Z.inj_mul, mult_IZR, bpow_add. ring. Qed.

Lemma SFmul_near (mx my : positive) (ex ey : Z) :
  Z.pos (digits2_pos mx) = prec -> Z.pos (digits2_pos my) = prec ->
  (bpow (emin + prec - 1) <= F2R mx ex * F2R my ey <= bpow (emax - 2))%R ->
  exists mp ep T U,
    SFmul prec emax (S754_finite false mx ex) (S754_finite false my ey)
      = S754_finite false mp ep /\
    Z.pos (digits2_pos mp) = prec /\
    (0 < T /\ 0 < U <= bpow (1 - prec) * T)%R /\
    (T <= F2R mx ex * F2R my ey <= T + U)%R /\
    (T <= F2R mp ep <= T + U)%R.
Proof.
  intros Dx Dy [Hlo Hhi]. unfold SFmul. cbn [xorb].
  rewrite <- F2R_mul in Hlo, Hhi.
  pose proof (F2R_bounds (mx * my) (ex + ey)) as [Blo Bhi].
  pose proof (normal_mantissa mx Dx) as Hx. pose proof (normal_mantissa my Dy) as Hy.
  pose proof (digits2_bounds (mx * my)) as [_ Hd].
  assert (Hp1 : 0 < 2 ^ (prec - 1)) by (apply Z.pow_pos_nonneg; lia).
  assert (HD : 2 * prec - 2 < Z.pos (digits2_pos (mx * my))).
  { apply (Z.pow_lt_mono_r_iff 2); [lia | lia |].
    eapply Z.le_lt_trans; [|exact Hd].
    replace (2 * prec - 2) with ((prec - 1) + (prec - 1)) by lia.
    rewrite Z.pow_add_r, Pos2Z.inj_mul by lia. nia. }
  destruct (@binary_round_aux_near prec emax prec_positive false (mx * my) (ex + ey) loc_Exact)
    as (mp & ep & T & U & Er & Dp & HTU & Hx' & Hp).
  { lia. }
  { assert (emin + prec - 1 < Z.pos (digits2_pos (mx * my)) + (ex + ey))
      by (apply bpow_lt_inv; lra). lia. }
  { assert (Z.pos (digits2_pos (mx * my)) + (ex + ey) - 1 <= emax - 2)
      by (apply bpow_le_inv; lra). lia. }
  exists mp, ep, T, U. split; [exact Er|]. split; [exact Dp|]. split; [exact HTU|].
  split; [|exact Hp]. rewrite <- F2R_mul. apply Hx'. fold (F2R (mx * my) (ex + ey)).
  pose proof (bpow_pos (ex + ey)). unfold F2R. nra.
Qed.

Lemma SFdiv_near (mn mp : positive) (en ep : Z) :
  SpecFloat.bounded prec emax mn en = true -> Z.pos (digits2_pos mp) = prec ->
  (F2R mn en <= 2 * F2R mp ep /\ F2R mp ep <= 2 * F2R mn en)%R ->
  exists mr er T U,
    SFdiv prec emax (S754_finite false mn en) (S754_finite false mp ep)
      = S754_finite false mr er /\
    (0 < T /\ 0 < U <= bpow (1 - prec) * T)%R /\
    (T * F2R mp ep <= F2R mn en <= (T + U) * F2R mp ep)%R /\
    (T <= F2R mr er <= T + U)%R.
Proof.
  intros Hb Dp [Hnp Hpn]. apply bounded_digits in Hb as (_ & Hd & _).
  unfold SFdiv, SFdiv_core_binary. cbn [xorb Zdigits2]. rewrite Dp.
  set (d := Z.pos (digits2_pos mn)) in *.
  assert (Hd0 : 0 < d) by (unfold d; lia).
  pose proof (F2R_bounds mn en) as [Nlo Nhi]. fold d in Nlo, Nhi.
  pose proof (F2R_bounds mp ep) as [Plo Phi]. rewrite Dp in Plo, Phi.
  assert (Hd1 : d + en <= prec + ep + 1).
  { assert (d + en - 1 < prec + ep + 1); [|lia]. apply bpow_lt_inv.
    replace (prec + ep + 1) with (1 + (prec + ep)) by lia. rewrite bpow_add.
    replace (bpow 1) with 2%R by (unfold bpow; simpl; lra). lra. }
  assert (Hd2 : prec + ep <= d + en + 1).
  { assert (prec + ep - 1 < d + en + 1); [|lia]. apply bpow_lt_inv.
    replace (d + en + 1) with (1 + (d + en)) by lia. rewrite bpow_add.
    replace (bpow 1) with 2%R by (unfold bpow; simpl; lra). lra. }
  assert (Ee : Z.min (fexp (d + en - (prec + ep))) (en - ep) = d + en - (prec + ep) - prec).
  { unfold SpecFloat.fexp, SpecFloat.emin. lia. }
  rewrite Ee. set (e' := d + en - (prec + ep) - prec).
  destruct (en - ep - e') as [|p|p] eqn:Esh; try (unfold e' in Esh; lia).
  rewrite Z.shiftl_mul_pow2 by lia.
  set (m' := Z.pos mn * 2 ^ Z.pos p).
  pose proof (Z_div_mod m' (Z.pos mp) ltac:(lia)) as Hdiv.
  destruct (Z.div_eucl m' (Z.pos mp)) as [q r]. destruct Hdiv as [Hm' Hr].
  pose proof (digits2_bounds mn) as [Hnlo Hnhi]. fold d in Hnlo, Hnhi.
  pose proof (normal_mantissa mp Dp) as Hmp.
  assert (Hpow : 0 < 2 ^ Z.pos p) by (apply Z.pow_pos_nonneg; lia).
  assert (Hp1 : 0 < 2 ^ (prec - 1)) by (apply Z.pow_pos_nonneg; lia).
  assert (Hm'lo : 2 ^ (prec - 1) * 2 ^ prec <= m').
  { apply Z.le_trans with (2 ^ (d - 1) * 2 ^ Z.pos p); [|unfold m'; nia].
    rewrite <- !Z.pow_add_r by lia. apply Z.pow_le_mono_r; unfold e' in Esh; lia. }
  assert (Hm'hi : m' < 2 ^ (prec + 1) * 2 ^ (prec - 1)).
  { apply Z.lt_le_trans with (2 ^ d * 2 ^ Z.pos p); [unfold m'; nia|].
    rewrite <- !Z.pow_add_r by lia. apply Z.pow_le_mono_r; unfold e' in Esh; lia. }
  assert (Hp2 : 0 < 2 ^ (prec + 1)) by (apply Z.pow_pos_nonneg; lia).
  assert (Hq : 2 ^ (prec - 1) <= q < 2 ^ (prec + 1)) by nia.
  destruct q as [|mq|mq]; try lia.
  pose proof (digits2_bounds mq) as [Hqlo Hqhi].
  assert (Dq1 : prec - 1 < Z.pos (digits2_pos mq)).
  { apply (Z.pow_lt_mono_r_iff 2); lia. }
  assert (Dq2 : Z.pos (digits2_pos mq) - 1 < prec + 1).
  { apply (Z.pow_lt_mono_r_iff 2); lia. }
  destruct (@binary_round_aux_near prec emax prec_positive false mq e'
              (new_location (Z.pos mp) r))
    as (mr & er & T & U & Er & _ & HTU & Hx & Hres).
  { lia. } { unfold SpecFloat.emin, e'. lia. } { unfold e'. lia. }
  exists mr, er, T, U. split; [exact Er|]. split; [exact HTU|]. split; [|exact Hres].
  pose proof (bpow_pos e') as Hb.
  destruct (Hx (IZR (Z.pos mq) * bpow e')%R) as [Hx1 _]; [nra|].
  destruct (Hx ((IZR (Z.pos mq) + 1) * bpow e')%R) as [_ Hx2]; [nra|].
  pose proof (F2R_pos mp ep) as HP.
  assert (En : F2R mn en = (IZR m' * bpow e' * bpow ep)%R).
  { unfold F2R, m'. rewrite mult_IZR, <- bpow_IZR, !Rmult_assoc, <- !bpow_add by lia.
    do 2 f_equal. lia. }
  assert (Hq1 : (IZR (Z.pos mp) * IZR (Z.pos mq) <= IZR m')%R).
  { rewrite <- mult_IZR. apply IZR_le. lia. }
  assert (Hq2 : (IZR m' <= IZR (Z.pos mp) * (IZR (Z.pos mq) + 1))%R).
  { rewrite <- plus_IZR, <- mult_IZR. apply IZR_le. lia. }
  pose proof (bpow_pos ep) as Hbp.
  assert (Hbb : (0 < bpow e' * bpow ep)%R) by (apply Rmult_lt_0_compat; assumption).
  rewrite En. unfold F2R in *.
  set (B := (bpow e' * bpow ep)%R) in *.
  assert (H1 : (IZR (Z.pos mp) * IZR (Z.pos mq) * B <= IZR m' * B)%R)
    by (apply Rmult_le_compat_r; lra).
  assert (H2 : (IZR m' * B <= IZR (Z.pos mp) * (IZR (Z.pos mq) + 1) * B)%R)
    by (apply Rmult_le_compat_r; lra).
  assert (H3 : (T * (IZR (Z.pos mp) * bpow ep)
                <= IZR (Z.pos mq) * bpow e' * (IZR (Z.pos mp) * bpow ep))%R)
    by (apply Rmult_le_compat_r; lra).
  assert (H4 : ((IZR (Z.pos mq) + 1) * bpow e' * (IZR (Z.pos mp) * bpow ep)
                <= (T + U) * (IZR (Z.pos mp) * bpow ep))%R)
    by (apply Rmult_le_compat_r; lra).
  replace (IZR m' * bpow e' * bpow ep)%R with (IZR m' * B)%R by (unfold B; ring).
  replace (IZR (Z.pos mq) * bpow e' * (IZR (Z.pos mp) * bpow ep))%R
    with (IZR (Z.pos mp) * IZR (Z.pos mq) * B)%R in H3 by (unfold B; ring).
  replace ((IZR (Z.pos mq) + 1) * bpow e' * (IZR (Z.pos mp) * bpow ep))%R
    with (IZR (Z.pos mp) * (IZR (Z.pos mq) + 1) * B)%R in H4 by (unfold B; ring).
  lra.
Qed.

Lemma eps_value : (bpow (1 - prec) * 4503599627370496 = 1)%R.
Proof.
  change 4503599627370496%R with (IZR (2 ^ 52)). rewrite <- bpow_IZR by lia.
  rewrite <- bpow_add. replace (1 - prec + 52) with 0 by lia. reflexivity.
Qed.

Lemma bpow_double (a : Z) : (2 * bpow a = bpow (a + 1))%R.
Proof.
  rewrite bpow_add. replace (bpow 1) with 2%R by (unfold bpow; simpl; lra). ring.
Qed.

(** [n / (sqrt n * sqrt n)], each operation rounded, is within [2^-49] of
    1 as long as [n] lies between [2^-1021] and [2^1021]. *)
Lemma self_quotient_near (m : positive) (e : Z) :
  SpecFloat.bounded prec emax m e = true ->
  (bpow (emin + prec) <= F2R m e <= bpow (emax - 3))%R ->
  exists mr er,
    SFdiv prec emax (S754_finite false m e)
      (SFmul prec emax (SFsqrt prec emax (S754_finite false m e))
                       (SFsqrt prec emax (S754_finite false m e)))
      = S754_finite false mr er /\
    (Rabs (F2R mr er - 1) <= bpow (4 - prec))%R.
Proof.
  intros Hb [Hlo Hhi].
  pose proof eps_value as He. pose proof (bpow_pos (1 - prec)) as He0.
  set (eps := bpow (1 - prec)) in *.
  assert (He16 : (eps <= / 16)%R) by lra.
  pose proof (F2R_pos m e) as HN. set (N := F2R m e) in *.
  destruct (SFsqrt_near m e Hb) as (ms & es & L & U1 & Es & Ds & (HL & HU1) & HS & HNL).
  rewrite Es. fold N in HNL. fold eps in HU1.
  destruct (@square_ratio eps L U1 (F2R ms es) N He0 HL HU1 HS HNL) as [HNS HSN].
  pose proof (F2R_pos ms es) as HS0. set (S := F2R ms es) in *.
  assert (HSS : (0 < S * S)%R) by (apply Rmult_lt_0_compat; assumption).
  pose proof (bpow_double (emin + prec - 1)) as Hd1.
  replace (emin + prec - 1 + 1) with (emin + prec) in Hd1 by lia.
  pose proof (bpow_double (emax - 3)) as Hd2.
  replace (emax - 3 + 1) with (emax - 2) in Hd2 by lia.
  destruct (@SFmul_near ms ms es es Ds Ds) as (mp & ep & T2 & U2 & Ep & Dp & (HT2 & HU2) & HSS2 & HP).
  { fold S. split; nra. }
  rewrite Ep. fold S in HSS2. fold eps in HU2.
  pose proof (F2R_pos mp ep) as HP0. set (P := F2R mp ep) in *.
  assert (HSP : (S * S <= (1 + eps) * P)%R) by (apply interval_ratio with T2 U2; assumption).
  assert (HPS : (P <= (1 + eps) * (S * S))%R) by (apply interval_ratio with T2 U2; assumption).
  set (k := ((1 + eps) * (1 + eps) * (1 + eps))%R).
  assert (Hk : (0 < k)%R) by (unfold k; nra).
  assert (HNP : (N <= k * P)%R).
  { unfold k. apply Rle_trans with ((1 + eps) * (1 + eps) * (S * S))%R; [exact HNS|].
    rewrite Rmult_assoc. rewrite (Rmult_assoc (1 + eps) (1 + eps)).
    rewrite (Rmult_assoc (1 + eps) ((1 + eps) * (1 + eps))).
    apply Rmult_le_compat_l; [lra|]. rewrite !Rmult_assoc.
    apply Rmult_le_compat_l; [lra|]. exact HSP. }
  assert (HPN : (P <= k * N)%R).
  { unfold k. apply Rle_trans with ((1 + eps) * (S * S))%R; [exact HPS|].
    rewrite !Rmult_assoc. apply Rmult_le_compat_l; [lra|].
    rewrite <- Rmult_assoc. exact HSN. }
  assert (Hk2 : (k <= 2)%R) by (unfold k; nra).
  destruct (@SFdiv_near m mp e ep Hb Dp) as (mr & er & T3 & U3 & Er & (HT3 & HU3) & HNT & HR).
  { fold N P. split; nra. }
  exists mr, er. split; [exact Er|]. fold N P in HNT. fold eps in HU3.
  destruct (@quotient_ratio eps T3 U3 N P (F2R mr er) He0 HP0 HT3 HU3 HNT HR k Hk HNP HPN)
    as [Hr1 Hr2].
  pose proof (F2R_pos mr er) as Hr0. set (r := F2R mr er) in *.
  assert (E8 : (bpow (4 - prec) = 8 * eps)%R).
  { unfold eps. replace (4 - prec) with (3 + (1 - prec)) by lia. rewrite bpow_add.
    replace (bpow 3) with 8%R by (unfold bpow; simpl; lra). reflexivity. }
  rewrite E8.
  assert (Hk5 : ((1 + eps) * k <= 1 + 5 * eps)%R) by (unfold k; nra).
  apply Rabs_le. split.
  - assert (H : (1 <= (1 + 5 * eps) * r)%R).
    { apply Rle_trans with ((1 + eps) * k * r)%R; [exact Hr2|].
      apply Rmult_le_compat_r; lra. }
    nra.
  - lra.
Qed.

End Binary64.

Lemma in_range_decoded (n : float) :
  in_range n = true ->
  exists m e,
    Prim2SF n = S754_finite false m e /\
    SpecFloat.bounded prec emax m e = true /\
    (bpow (-1021) <= F2R m e <= bpow 1021)%R.
Proof.
  unfold in_range. intro H. apply andb_prop in H as [Hlo Hhi].
  rewrite leb_spec in Hlo, Hhi.
  pose proof (Prim2SF_valid n) as Hv.
  change (Prim2SF 0x1p-1021) with (S754_finite false 4503599627370496 (-1073)) in Hlo.
  change (Prim2SF 0x1p+1021) with (S754_finite false 4503599627370496 969) in Hhi.
  destruct (Prim2SF n) as [s|s| |s m e]; try discriminate.
  - destruct s; discriminate.
  - destruct s; [discriminate|].
    exists m, e. split; [reflexivity|]. cbn [SpecFloat.valid_binary] in Hv.
    split; [exact Hv|].
    assert (prec_pos : (0 < prec)%Z) by reflexivity.
    apply (@SFleb_F2R prec emax prec_pos) in Hlo; [|reflexivity|exact Hv].
    apply (@SFleb_F2R prec emax prec_pos) in Hhi; [|exact Hv|reflexivity].
    assert (E1 : F2R 4503599627370496 (-1073) = bpow (-1021)).
    { unfold F2R. change (Z.pos 4503599627370496) with (2 ^ 52)%Z.
      rewrite <- bpow_IZR, <- bpow_add by lia. reflexivity. }
    assert (E2 : F2R 4503599627370496 969 = bpow 1021).
    { unfold F2R. change (Z.pos 4503599627370496) with (2 ^ 52)%Z.
      rewrite <- bpow_IZR, <- bpow_add by lia. reflexivity. }
    rewrite E1 in Hlo. rewrite E2 in Hhi. split; assumption.
Qed.

(** For a sum of squares in range, [n / (sqrt n * sqrt n)] is a number
    within [2^-49] of 1. *)
Lemma self_quotient (n : float) :
  in_range n = true ->
  is_finite (n / (PrimFloat.sqrt n * PrimFloat.sqrt n))%float = true /\
  (Rabs (to_R (n / (PrimFloat.sqrt n * PrimFloat.sqrt n))%float - 1) <= bpow (-49))%R.
Proof.
  intro H. destruct (in_range_decoded n H) as (m & e & En & Hb & Hr).
  unfold is_finite, to_R. rewrite div_spec, mul_spec, sqrt_spec, En.
  destruct (@self_quotient_near prec emax eq_refl eq_refl m e Hb Hr) as (mr & er & E & Hn).
  unfold SF64div, SF64mul, SF64sqrt. rewrite E. split; [reflexivity | exact Hn].
Qed.

Lemma in_range_not_zero (n : float) : in_range n = true -> PrimFloat.eqb n 0 = false.
Proof.
  intro H. destruct (in_range_decoded n H) as (m & e & En & _).
  rewrite FloatAxioms.eqb_spec, En. reflexivity.
Qed.

(** ** Comparisons and products, continued *)

Lemma is_nan_decoded (z : float) : PrimFloat.is_nan z = true -> Prim2SF z = S754_nan.
Proof.
  intro Hz. unfold PrimFloat.is_nan in Hz. rewrite FloatAxioms.eqb_spec in Hz.
  destruct (Prim2SF z) as [s|s| |s m e]; try reflexivity; exfalso.
  - discriminate.
  - destruct s; discriminate.
  - unfold SFeqb, SFcompare in Hz. rewrite Z.compare_refl in Hz.
    change (Pos.compare_cont Eq m m) with (Pos.compare m m) in Hz.
    rewrite Pos.compare_refl in Hz. destruct s; discriminate.
Qed.

Lemma SFmul_comm (prec emax : Z) (x y : spec_float) :
  SFmul prec emax x y = SFmul prec emax y x.
Proof.
  destruct x as [sx|sx| |sx mx ex], y as [sy|sy| |sy my ey]; cbn [SFmul];
    rewrite ?(xorb_comm sy sx); try reflexivity.
  now rewrite (Pos.mul_comm my mx), (Z.add_comm ey ex).
Qed.

Lemma mul_comm (x y : float) : (x * y)%float = (y * x)%float.
Proof. apply Prim2SF_inj. rewrite !mul_spec. apply SFmul_comm. Qed.

(** With [NaN] on either side, neither the difference is negative nor the
    comparison true. *)
Lemma sub_nan (x y : float) :
  PrimFloat.is_nan x = true \/ PrimFloat.is_nan y = true ->
  PrimFloat.ltb (x - y) zero = false /\ PrimFloat.ltb x y = false.
Proof.
  intro H. rewrite !ltb_spec, sub_spec.
  destruct H as [H | H]; apply is_nan_decoded in H; rewrite H.
  - split; reflexivity.
  - split; now destruct (Prim2SF x).
Qed.

(** Of two values, one less than the other, at most one equals a third. *)
Lemma ltb_eqb_apart (a b s : float) :
  PrimFloat.ltb a b = true -> PrimFloat.eqb a s = true -> PrimFloat.eqb b s = false.
Proof.
  rewrite ltb_spec, !FloatAxioms.eqb_spec. unfold SFltb, SFeqb.
  destruct (SFcompare (Prim2SF a) (Prim2SF b)) as [[| |]|] eqn:Eab; try discriminate.
  destruct (SFcompare (Prim2SF a) (Prim2SF s)) as [[| |]|] eqn:Eas; try discriminate.
  intros _ _.
  destruct (SFcompare (Prim2SF b) (Prim2SF s)) as [[| |]|] eqn:Ebs; try reflexivity.
  exfalso.
  assert (Na : Prim2SF a <> S754_nan) by (intro E; rewrite E in Eab; discriminate).
  assert (Nb : Prim2SF b <> S754_nan) by (intro E; rewrite E in Ebs; discriminate).
  assert (Ns : Prim2SF s <> S754_nan)
    by (intro E; rewrite E in Eas; destruct (Prim2SF a); discriminate).
  pose proof (SFcompare_rank Na Nb) as H1. rewrite Eab in H1.
  pose proof (SFcompare_rank Na Ns) as H2. rewrite Eas in H2.
  pose proof (SFcompare_rank Nb Ns) as H3. rewrite Ebs in H3.
  rewrite H2, <- H3 in H1. unfold rank_lt in H1.
  destruct (rank_of (Prim2SF b)) as [[? ?] ?]. lia.
Qed.

Lemma leb_antisym (x y : float) :
  PrimFloat.leb x y = true -> PrimFloat.leb y x = true -> PrimFloat.eqb x y = true.
Proof.
  rewrite !leb_spec, FloatAxioms.eqb_spec. unfold SFleb, SFeqb.
  destruct (SFcompare (Prim2SF x) (Prim2SF y)) as [[| |]|] eqn:Exy; try discriminate;
    [reflexivity|].
  destruct (SFcompare (Prim2SF y) (Prim2SF x)) as [[| |]|] eqn:Eyx; try discriminate;
    intros _ _; exfalso.
  all: assert (Nx : Prim2SF x <> S754_nan) by (intro E; rewrite E in Exy; discriminate).
  all: assert (Ny : Prim2SF y <> S754_nan) by (intro E; rewrite E in Eyx; discriminate).
  all: pose proof (SFcompare_rank Nx Ny) as H1; rewrite Exy in H1.
  all: pose proof (SFcompare_rank Ny Nx) as H2; rewrite Eyx in H2.
  all: unfold rank_lt in *;
    destruct (rank_of (Prim2SF x)) as [[? ?] ?], (rank_of (Prim2SF y)) as [[? ?] ?];
    try (injection H2 as ? ? ?); lia.
Qed.

End Float64.

(** * The loop of [cosineSimilarity], by recursion on the vectors *)

Lemma index_head (v : list Js.number) : Js.index v 0 = hd nan v.
Proof. now destruct v. Qed.

Lemma index_tail (v : list Js.number) (i : nat) : Js.index v (S i) = Js.index (tl v) i.
Proof. destruct v; [now destruct i | reflexivity]. Qed.

Lemma fold_accumulate (vecA vecB a b : list Js.number) (n : nat) (s : Sums) :
  (forall i, Js.index vecA (n + i) = Js.index a i) ->
  (forall i, Js.index vecB (n + i) = Js.index b i) ->
  fold_left (accumulate vecA vecB) (seq n (length a)) s = sums_from s a b.
Proof.
  revert b n s. induction a as [|x a IH]; intros b n s HA HB; [reflexivity|].
  cbn [length seq fold_left sums_from].
  assert (E : accumulate vecA vecB s n = step s x (hd nan b)).
  { unfold accumulate, step.
    pose proof (HA 0%nat) as H0. pose proof (HB 0%nat) as H1.
    rewrite Nat.add_0_r in H0, H1. rewrite H0, H1, !index_head. reflexivity. }
  rewrite E. apply IH; intro i.
  - pose proof (HA (S i)) as H. rewrite Nat.add_succ_r in H. exact H.
  - pose proof (HB (S i)) as H. rewrite Nat.add_succ_r in H.
    cbn [Nat.add]. rewrite H. apply index_tail.
Qed.

Lemma sums_unfold (vecA vecB : list Js.number) :
  sums vecA vecB = sums_from sums0 vecA vecB.
Proof. unfold sums. now apply fold_accumulate. Qed.

Lemma normA_all_zero (a b : list Js.number) (s : Sums) :
  all_zero a = true -> normA s = zero -> normA (sums_from s a b) = zero.
Proof.
  revert b s. induction a as [|x a IH]; intros b s Ha Hs; [exact Hs|].
  cbn in Ha. apply andb_prop in Ha as [Hx Ha].
  cbn [sums_from]. apply IH; [exact Ha|].
  cbn. rewrite Hs. now apply Float64.square_of_zero.
Qed.

Lemma normB_all_zero (a b : list Js.number) (s : Sums) :
  all_zero b = true -> (length a <= length b)%nat -> normB s = zero ->
  normB (sums_from s a b) = zero.
Proof.
  revert b s. induction a as [|x a IH]; intros b s Hb Hlen Hs; [exact Hs|].
  destruct b as [|y b]; [cbn in Hlen; lia|].
  cbn in Hb. apply andb_prop in Hb as [Hy Hb].
  cbn [sums_from hd tl]. apply IH; [exact Hb | cbn in Hlen; lia |].
  cbn. rewrite Hs. now apply Float64.square_of_zero.
Qed.

(** Once the second array is exhausted, every further iteration reads
    [undefined] from it, and the two sums it enters become [NaN]. *)
Lemma sums_from_nan (a : list Js.number) (s : Sums) :
  dotProduct s = nan -> normB s = nan ->
  dotProduct (sums_from s a []) = nan /\ normB (sums_from s a []) = nan.
Proof.
  revert s. induction a as [|x a IH]; intros s Hd Hn; [now split|].
  cbn [sums_from hd tl]. apply IH; cbn.
  - now rewrite Hd, Float64.add_nan_l.
  - now rewrite Hn, Float64.add_nan_l.
Qed.

Lemma sums_from_short (a b : list Js.number) (s : Sums) :
  (length b < length a)%nat ->
  dotProduct (sums_from s a b) = nan /\ normB (sums_from s a b) = nan.
Proof.
  revert b s. induction a as [|x a IH]; intros b s Hlen; [cbn in Hlen; lia|].
  destruct b as [|y b].
  - cbn [sums_from hd tl]. apply sums_from_nan; cbn.
    + now rewrite Float64.mul_nan_r, Float64.add_nan_r.
    + now rewrite ?Float64.mul_nan_r, Float64.add_nan_r.
  - cbn [sums_from hd tl]. apply IH. cbn in Hlen. lia.
Qed.

Lemma sums_from_prefix (a b : list Js.number) (s : Sums) :
  sums_from s a b = sums_from s a (firstn (length a) b).
Proof.
  revert b s. induction a as [|x a IH]; intros b s; [reflexivity|].
  destruct b as [|y b]; [reflexivity|].
  cbn [length firstn sums_from hd tl]. apply IH.
Qed.

(** The first sum only reads the first array. *)
Lemma normA_independent (a b b' : list Js.number) (s s' : Sums) :
  normA s = normA s' -> normA (sums_from s a b) = normA (sums_from s' a b').
Proof.
  revert b b' s s'. induction a as [|x a IH]; intros b b' s s' H; [exact H|].
  cbn [sums_from]. apply IH. cbn. now rewrite H.
Qed.

(** * The sort *)

Section SortFacts.
Context {A : Type} (comparefn : A -> A -> Js.number).

Lemma insert_permutation (x : A) (l : list A) :
  Permutation (Js.insert comparefn x l) (x :: l).
Proof.
  induction l as [|y l IH]; cbn [Js.insert]; [reflexivity|].
  destruct (Js.before comparefn y x); [|reflexivity].
  rewrite IH. apply perm_swap.
Qed.

(** Whatever the comparator answers, sorting only reorders. *)
Lemma sort_permutation (l : list A) : Permutation (Js.sort comparefn l) l.
Proof.
  induction l as [|x l IH]; cbn [Js.sort fold_right]; [reflexivity|].
  fold (Js.sort comparefn l). rewrite insert_permutation. now constructor.
Qed.

End SortFacts.

Section SortedFacts.
Context {A : Type} (R : A -> A -> Prop).

(** A prefix of a sorted list is sorted, and dominates what it leaves out. *)
Lemma sorted_firstn (k : nat) (l : list A) :
  StronglySorted R l ->
  StronglySorted R (firstn k l) /\
  (forall a b, In a (firstn k l) -> In b (skipn k l) -> R a b).
Proof.
  revert k. induction l as [|x l IH]; intros k H.
  - rewrite firstn_nil, skipn_nil. split; [constructor | intros a b []].
  - destruct k as [|k]; [split; [constructor | intros a b []]|].
    apply StronglySorted_inv in H as [Hl Hx].
    destruct (IH k Hl) as [Hs Hd]. cbn [firstn skipn]. split.
    + constructor; [exact Hs|].
      rewrite Forall_forall in *. intros a Ha. apply Hx.
      rewrite <- (firstn_skipn k l). apply in_or_app. now left.
    + intros a b [<- | Ha] Hb.
      * rewrite Forall_forall in Hx. apply Hx.
        rewrite <- (firstn_skipn k l). apply in_or_app. now right.
      * now apply Hd.
Qed.

Lemma sorted_map {B : Type} (f : B -> A) (l : list B) :
  StronglySorted (fun a b => R (f a) (f b)) l -> StronglySorted R (map f l).
Proof.
  induction 1 as [|x l Hl IH Hx]; cbn; constructor; [exact IH|].
  rewrite Forall_forall in *. intros y Hy.
  apply in_map_iff in Hy as (b & <- & Hb). now apply Hx.
Qed.

End SortedFacts.

(** ** Sorting by score *)

Lemma before_by_score (a b : Scored) :
  is_number (score a) = true -> is_number (score b) = true ->
  Js.before by_score a b = PrimFloat.ltb (score b) (score a).
Proof.
  unfold is_number, Js.before, by_score. intros Ha Hb.
  apply negb_true_iff in Ha, Hb. now apply Float64.sub_negative.
Qed.

Lemma insert_descending (x : Scored) (l : list Scored) :
  is_number (score x) = true ->
  Forall (fun s => is_number (score s) = true) l ->
  StronglySorted (fun a b => at_least (score a) (score b)) l ->
  StronglySorted (fun a b => at_least (score a) (score b)) (Js.insert by_score x l).
Proof.
  intros Hx Hl Hs. induction l as [|y l IH]; cbn [Js.insert].
  - constructor; constructor.
  - apply Forall_cons_iff in Hl as [Hy Hl].
    apply StronglySorted_inv in Hs as [Hs Hyl].
    rewrite before_by_score by assumption.
    destruct (PrimFloat.ltb (score x) (score y)) eqn:E.
    + constructor; [now apply IH|].
      rewrite (insert_permutation by_score x l). constructor; [|exact Hyl].
      now apply Float64.ltb_leb.
    + assert (Hxy : at_least (score x) (score y)).
      { unfold is_number in Hx, Hy. apply negb_true_iff in Hx, Hy.
        now apply Float64.ltb_false_leb. }
      constructor; [now constructor|]. constructor; [exact Hxy|].
      rewrite Forall_forall in *. intros z Hz.
      unfold at_least in *. eapply Float64.leb_trans; [apply Hyl, Hz | exact Hxy].
Qed.

(** When every score is a number, the comparator is consistent and the
    sorted array is in descending order of score. *)
Lemma sort_descending (l : list Scored) :
  Forall (fun s => is_number (score s) = true) l ->
  StronglySorted (fun a b => at_least (score a) (score b)) (Js.sort by_score l).
Proof.
  induction 1 as [|x l Hx Hl IH]; cbn [Js.sort fold_right]; [constructor|].
  fold (Js.sort by_score l). apply insert_descending; [exact Hx | | exact IH].
  now rewrite (sort_permutation by_score l).
Qed.

(** * What a call of [searchSimilarChunks] does *)

Lemma search_reachable (w : World) (q : list Js.number) (limit : option Z)
    (filename : option string) :
  reachable (store w) = true ->
  searchSimilarChunks q limit filename w =
  (Fulfilled (rank q (limit_of limit) (candidates filename (store w))),
   {| store := store w;
      console := console w ++
        [(LevelLog, MsgAttempting); (LevelLog, MsgFallingBack); announcement filename;
         (LevelLog, MsgRetrieved (length (candidates filename (store w))))] ++
        first_metadata (candidates filename (store w)) ++
        [(LevelLog, MsgScoring (length (candidates filename (store w))))] |}).
Proof.
  intro Hr. unfold searchSimilarChunks, candidates, scope, announcement, limit_of.
  unfold try_catch, bind, console_log, console_warn, emit, ret, chunks_get.
  destruct filename as [f|]; cbn [Js.truthy];
    [destruct (negb (String.eqb f EmptyString))|]; cbn [store console fst snd];
    rewrite Hr;
    match goal with |- context [map chunk_of_doc ?l] =>
      destruct (map chunk_of_doc l) as [|c cs] end;
    cbn [store console first_metadata length];
    rewrite <- ?app_assoc; reflexivity.
Qed.

Lemma search_unreachable (w : World) (q : list Js.number) (limit : option Z)
    (filename : option string) :
  reachable (store w) = false ->
  searchSimilarChunks q limit filename w =
  (Fulfilled [],
   {| store := store w;
      console := console w ++
        [(LevelLog, MsgAttempting); (LevelLog, MsgFallingBack); announcement filename;
         (LevelError, MsgSearchFailed StorageUnavailable)] |}).
Proof.
  intro Hr. unfold searchSimilarChunks, announcement.
  unfold try_catch, bind, console_log, console_warn, console_error, emit, ret, chunks_get.
  destruct filename as [f|]; cbn [Js.truthy];
    [destruct (negb (String.eqb f EmptyString))|]; cbn [store console fst snd];
    rewrite Hr; cbn [store console]; rewrite <- ?app_assoc; reflexivity.
Qed.

(** The promise is always fulfilled, and the store is left as it was. *)
Lemma search_total (w : World) (q : list Js.number) (limit : option Z)
    (filename : option string) :
  exists cs log,
    searchSimilarChunks q limit filename w =
    (Fulfilled cs, {| store := store w; console := console w ++ log |}) /\
    (reachable (store w) = true ->
       cs = rank q (limit_of limit) (candidates filename (store w))) /\
    (reachable (store w) = false -> cs = []).
Proof.
  destruct (reachable (store w)) eqn:Hr.
  - rewrite search_reachable by exact Hr. do 2 eexists. split; [reflexivity|].
    split; [reflexivity | discriminate].
  - rewrite search_unreachable by exact Hr. do 2 eexists. split; [reflexivity|].
    split; [discriminate | reflexivity].
Qed.

(** ** The ranking *)

Lemma slice0_length {A : Type} (l : list A) (k : Z) :
  (0 <= k)%Z -> length (Js.slice0 l k) = Nat.min (Z.to_nat k) (length l).
Proof.
  intro Hk. unfold Js.slice0.
  destruct (Z.ltb_spec k 0); [lia|].
  rewrite length_firstn. lia.
Qed.

Lemma slice0_prefix {A : Type} (l : list A) (k : Z) :
  exists n, Js.slice0 l k = firstn n l.
Proof. unfold Js.slice0. eauto. Qed.

Lemma slice0_all {A : Type} (l : list A) (k : Z) :
  (Z.of_nat (length l) <= k)%Z -> Js.slice0 l k = l.
Proof.
  intro Hk. unfold Js.slice0.
  destruct (Z.ltb_spec k 0); [lia|].
  apply firstn_all2. lia.
Qed.

Lemma chunk_score_chunk (q : list Js.number) (l : list Chunk.t) :
  map chunk (map (score_chunk q) l) = l.
Proof. rewrite map_map. cbn. apply map_id. Qed.

(** The ranking and what it leaves out are, together, the candidates. *)
Lemma rank_split (q : list Js.number) (k : Z) (l : list Chunk.t) :
  exists n,
    rank q k l = map chunk (firstn n (Js.sort by_score (map (score_chunk q) l))) /\
    Permutation
      (rank q k l ++ map chunk (skipn n (Js.sort by_score (map (score_chunk q) l)))) l.
Proof.
  unfold rank. destruct (slice0_prefix (Js.sort by_score (map (score_chunk q) l)) k) as [n ->].
  exists n. split; [reflexivity|].
  rewrite <- map_app, firstn_skipn.
  rewrite (sort_permutation by_score). now rewrite chunk_score_chunk.
Qed.

Lemma rank_incl (q : list Js.number) (k : Z) (l : list Chunk.t) (c : Chunk.t) :
  In c (rank q k l) -> In c l.
Proof.
  destruct (rank_split q k l) as (n & _ & Hp). intro H.
  eapply Permutation_in; [exact Hp|]. apply in_or_app. now left.
Qed.

Lemma rank_length (q : list Js.number) (k : Z) (l : list Chunk.t) :
  (0 <= k)%Z -> length (rank q k l) = Nat.min (Z.to_nat k) (length l).
Proof.
  intro Hk. unfold rank. rewrite length_map, slice0_length by exact Hk.
  now rewrite (Permutation_length (sort_permutation by_score _)), length_map.
Qed.

Lemma rank_all (q : list Js.number) (k : Z) (l : list Chunk.t) :
  (Z.of_nat (length l) <= k)%Z -> Permutation (rank q k l) l.
Proof.
  intro Hk. unfold rank. rewrite slice0_all.
  - rewrite (sort_permutation by_score). now rewrite chunk_score_chunk.
  - now rewrite (Permutation_length (sort_permutation by_score _)), length_map.
Qed.

Lemma candidates_scoped (f : string) (s : Firestore) (c : Chunk.t) :
  f <> EmptyString -> In c (candidates (Some f) s) ->
  ChunkMetadata.filename (Chunk.metadata c) = f.
Proof.
  intros Hf. unfold candidates, scope. cbn [Js.truthy].
  destruct (String.eqb_spec f EmptyString) as [E|_]; [contradiction|]. cbn [negb].
  intro H. apply in_map_iff in H as (d & <- & Hd).
  apply filter_In in Hd as [_ Hm]. cbn in Hm. now apply String.eqb_eq in Hm.
Qed.

(** ** Descending order *)

Lemma sorted_weaken {A : Type} (R R' : A -> A -> Prop) (P : A -> Prop) (l : list A) :
  (forall a b, P a -> P b -> R a b -> R' a b) ->
  Forall P l -> StronglySorted R l -> StronglySorted R' l.
Proof.
  intros HR HP Hs. induction Hs as [|x l Hl IH Hx]; constructor.
  - apply IH. now apply Forall_inv_tail in HP.
  - apply Forall_cons_iff in HP as [Px Pl].
    rewrite Forall_forall in *. intros y Hy. apply HR; auto.
Qed.

Lemma sorted_scores (q : list Js.number) (l : list Chunk.t) :
  Forall (fun s => score s = score_of q (chunk s))
         (Js.sort by_score (map (score_chunk q) l)).
Proof.
  rewrite (sort_permutation by_score). apply Forall_forall.
  intros s Hs. apply in_map_iff in Hs as (c & <- & _). reflexivity.
Qed.

Lemma rank_descending (q : list Js.number) (k : Z) (l : list Chunk.t) :
  Forall (fun c => is_number (score_of q c) = true) l ->
  exists omitted,
    Permutation (rank q k l ++ omitted) l /\
    StronglySorted (fun a b => at_least (score_of q a) (score_of q b)) (rank q k l) /\
    (forall a b, In a (rank q k l) -> In b omitted ->
                 at_least (score_of q a) (score_of q b)).
Proof.
  intro Hn. destruct (rank_split q k l) as (n & E & Hp).
  set (sorted := Js.sort by_score (map (score_chunk q) l)) in *.
  assert (Hs : StronglySorted
                 (fun a b => at_least (score_of q (chunk a)) (score_of q (chunk b))) sorted).
  { apply sorted_weaken with
      (R := fun a b => at_least (score a) (score b))
      (P := fun s => score s = score_of q (chunk s)).
    - intros a b Ha Hb. now rewrite Ha, Hb.
    - apply sorted_scores.
    - apply sort_descending. apply Forall_forall. intros s Hs.
      apply in_map_iff in Hs as (c & <- & Hc). rewrite Forall_forall in Hn.
      now apply Hn. }
  destruct (sorted_firstn n Hs) as [Hf Hd].
  exists (map chunk (skipn n sorted)). rewrite E. split; [now rewrite <- E|]. split.
  - now apply sorted_map.
  - intros a b Ha Hb.
    apply in_map_iff in Ha as (sa & <- & Ha). apply in_map_iff in Hb as (sb & <- & Hb).
    now apply Hd.
Qed.

(** * Cosine similarity on degenerate operands *)

Lemma normA_squared_norm (a b : list Js.number) : normA (sums a b) = squared_norm a.
Proof. unfold squared_norm. rewrite !sums_unfold. now apply normA_independent. Qed.

Lemma cosine_zero_query (a b : list Js.number) :
  is_zero (squared_norm a) = true -> cosineSimilarity a b = zero.
Proof.
  intro H. unfold cosineSimilarity. rewrite normA_squared_norm.
  unfold is_zero in H. now rewrite H.
Qed.

Lemma all_zero_squared_norm (a : list Js.number) :
  all_zero a = true -> squared_norm a = zero.
Proof.
  intro H. unfold squared_norm. rewrite sums_unfold. now apply normA_all_zero.
Qed.

Lemma cosine_all_zero_first (a b : list Js.number) :
  all_zero a = true -> cosineSimilarity a b = zero.
Proof.
  intro H. apply cosine_zero_query. now rewrite all_zero_squared_norm.
Qed.

Lemma cosine_all_zero_second (a b : list Js.number) :
  all_zero b = true -> (length a <= length b)%nat -> cosineSimilarity a b = zero.
Proof.
  intros H Hlen. unfold cosineSimilarity. rewrite sums_unfold.
  rewrite (@normB_all_zero a b sums0 H Hlen eq_refl).
  change (Js.strict_eq zero zero) with true. now rewrite orb_true_r.
Qed.

(** A candidate shorter than the query is read past its end. *)
Lemma cosine_short_candidate (a b : list Js.number) :
  (length b < length a)%nat -> is_zero (squared_norm a) = false ->
  cosineSimilarity a b = nan.
Proof.
  intros Hlen Hz. unfold cosineSimilarity.
  rewrite normA_squared_norm. unfold is_zero in Hz. rewrite Hz.
  rewrite sums_unfold. destruct (@sums_from_short a b sums0 Hlen) as [-> ->].
  change (Js.strict_eq nan zero) with false. cbn [orb].
  apply Float64.div_nan_l.
Qed.

(** A candidate longer than the query is read up to the query's length. *)
Lemma cosine_long_candidate (a b : list Js.number) :
  cosineSimilarity a b = cosineSimilarity a (firstn (length a) b).
Proof.
  unfold cosineSimilarity. rewrite !sums_unfold.
  now rewrite <- sums_from_prefix.
Qed.

(** * Retrieval scope *)

(** C1, amended: for every stored corpus, query embedding, limit and
    non-empty filename [f], every chunk [searchSimilarChunks] returns has
    [metadata.filename] equal to [f], whatever the scores of the other
    documents' chunks. *)
Theorem search_scoped_to_filename (w : World) (q : list Js.number) (limit : option Z)
    (f : string) (c : Chunk.t) :
  f <> EmptyString ->
  In c (returned (searchSimilarChunks q limit (Some f) w)) ->
  ChunkMetadata.filename (Chunk.metadata c) = f.
Proof.
  intros Hf Hc. destruct (reachable (store w)) eqn:Hr.
  - rewrite search_reachable in Hc by exact Hr. cbn [returned fst] in Hc.
    apply rank_incl in Hc. now apply candidates_scoped with (s := store w).
  - rewrite search_unreachable in Hc by exact Hr. destruct Hc.
Qed.

Lemma search_scoped_to_filename_witness :
  "x.pdf"%string <> EmptyString /\
  In (chunk_of_doc (stored 2 "x.pdf" [0; 1]%float))
     (returned (searchSimilarChunks query (Some 2%Z) (Some "x.pdf"%string) (world_of corpus))) /\
  ChunkMetadata.filename (Chunk.metadata (chunk_of_doc (stored 2 "x.pdf" [0; 1]%float)))
  = "x.pdf"%string.
Proof.
  assert (H1 : "x.pdf"%string <> EmptyString) by discriminate.
  assert (H2 : In (chunk_of_doc (stored 2 "x.pdf" [0; 1]%float))
                  (returned (searchSimilarChunks query (Some 2%Z) (Some "x.pdf"%string)
                                                 (world_of corpus)))).
  { vm_compute. right. left. reflexivity. }
  split; [exact H1|]. split; [exact H2|].
  exact (@search_scoped_to_filename (world_of corpus) query (Some 2%Z) _ _ H1 H2).
Defined.

(** C1 as stated fails for the empty filename: [if (filename)] takes it for
    an absent one, and the chunk of [y.pdf] comes back first. *)
Lemma search_empty_filename_is_global :
  filenames (returned (searchSimilarChunks query None (Some EmptyString) (world_of corpus)))
  = ["y.pdf"; "x.pdf"; "x.pdf"]%string.
Proof. vm_compute. reflexivity. Qed.

(** C8: without a filename the candidate set is the whole chunk
    collection, and the call writes the global-scan warning to the
    console.  When the store answers, the chunks returned and the chunks
    left out are together every stored chunk, each with its id, text,
    embedding and metadata, and what is returned is as many as the limit
    allows. *)
Theorem search_without_filename_is_global (w : World) (q : list Js.number)
    (limit : option Z) :
  exists cs log,
    searchSimilarChunks q limit None w =
      (Fulfilled cs, {| store := store w; console := console w ++ log |}) /\
    In (LevelWarn, MsgNoFilename) log /\
    chunks_get (scope None) w =
      (if reachable (store w) then Fulfilled (document_chunks (store w))
       else Rejected StorageUnavailable, w) /\
    (reachable (store w) = true ->
       In (LevelLog, MsgRetrieved (length (document_chunks (store w)))) log /\
       (exists omitted,
          Permutation (cs ++ omitted)
            (map (fun d => Chunk.mk (Some (chunk_doc_id d)) (chunk_doc_text d)
                             (chunk_doc_embedding d) (chunk_doc_metadata d))
                 (document_chunks (store w)))) /\
       ((0 <= limit_of limit)%Z ->
        length cs = Nat.min (Z.to_nat (limit_of limit))
                            (length (document_chunks (store w))))).
Proof.
  assert (Hall : forall l : list ChunkDoc, filter (matches None) l = l).
  { induction l as [|d l IH]; cbn; [reflexivity | now rewrite IH]. }
  assert (Hget : chunks_get (scope None) w =
      (if reachable (store w) then Fulfilled (document_chunks (store w))
       else Rejected StorageUnavailable, w)).
  { unfold chunks_get, scope. cbn [Js.truthy]. rewrite Hall.
    now destruct (reachable (store w)). }
  destruct (reachable (store w)) eqn:Hr.
  - rewrite search_reachable by exact Hr. do 2 eexists.
    split; [reflexivity|]. split; [cbn; tauto|]. split; [exact Hget|].
    intros _. unfold candidates, scope. cbn [Js.truthy]. rewrite Hall, length_map.
    split; [cbn; tauto|]. split.
    + destruct (rank_split q (limit_of limit) (map chunk_of_doc (document_chunks (store w))))
        as (n & _ & Hp).
      eexists. exact Hp.
    + intro Hk. rewrite rank_length by exact Hk. now rewrite length_map.
  - rewrite search_unreachable by exact Hr. do 2 eexists.
    split; [reflexivity|]. split; [cbn; tauto|]. split; [exact Hget | discriminate].
Qed.

(** * Size of the result *)

Lemma search_length (w : World) (q : list Js.number) (limit : option Z)
    (filename : option string) :
  (0 <= limit_of limit)%Z ->
  exists cs w',
    searchSimilarChunks q limit filename w = (Fulfilled cs, w') /\
    (Z.of_nat (length cs) <= limit_of limit)%Z /\
    (length cs <= length (candidates filename (store w)))%nat.
Proof.
  intro Hk. destruct (reachable (store w)) eqn:Hr.
  - rewrite search_reachable by exact Hr. do 2 eexists. split; [reflexivity|].
    rewrite rank_length by exact Hk. split; lia.
  - rewrite search_unreachable by exact Hr. do 2 eexists. split; [reflexivity|].
    cbn [length]. split; lia.
Qed.

(** C6: for every limit [k] that is a count ([0 <= k]) the call returns
    at most [k] chunks and never more than the scoped candidate set holds;
    when that set has at most [k] chunks the result is exactly the set,
    reordered, with no padding and no error. *)
Theorem search_at_most_limit (w : World) (q : list Js.number) (limit : option Z)
    (filename : option string) :
  (0 <= limit_of limit)%Z ->
  exists cs w',
    searchSimilarChunks q limit filename w = (Fulfilled cs, w') /\
    (Z.of_nat (length cs) <= limit_of limit)%Z /\
    (length cs <= length (candidates filename (store w)))%nat /\
    (reachable (store w) = true ->
     (Z.of_nat (length (candidates filename (store w))) <= limit_of limit)%Z ->
     Permutation cs (candidates filename (store w))).
Proof.
  intro Hk. destruct (reachable (store w)) eqn:Hr.
  - rewrite search_reachable by exact Hr. do 2 eexists. split; [reflexivity|].
    rewrite rank_length by exact Hk.
    split; [lia|]. split; [lia|]. intros _. apply rank_all.
  - rewrite search_unreachable by exact Hr. do 2 eexists. split; [reflexivity|].
    cbn [length]. split; [lia|]. split; [lia|]. discriminate.
Qed.

Lemma search_at_most_limit_witness :
  (0 <= limit_of (Some 5%Z))%Z /\
  exists cs w',
    searchSimilarChunks query (Some 5%Z) (Some "x.pdf"%string) (world_of corpus)
      = (Fulfilled cs, w') /\
    (Z.of_nat (length cs) <= limit_of (Some 5%Z))%Z /\
    (length cs <= length (candidates (Some "x.pdf"%string) (store (world_of corpus))))%nat /\
    (reachable (store (world_of corpus)) = true ->
     (Z.of_nat (length (candidates (Some "x.pdf"%string) (store (world_of corpus))))
      <= limit_of (Some 5%Z))%Z ->
     Permutation cs (candidates (Some "x.pdf"%string) (store (world_of corpus)))).
Proof.
  assert (H : (0 <= limit_of (Some 5%Z))%Z) by (unfold limit_of; lia).
  split; [exact H|].
  exact (@search_at_most_limit (world_of corpus) query (Some 5%Z) (Some "x.pdf"%string) H).
Defined.

(** C10: a call that passes no limit is the call with limit 3: it
    returns and logs what that call does, which is at most three chunks,
    and exactly three when the store answers with three candidates or
    more. *)
Theorem search_default_limit (w : World) (q : list Js.number) (filename : option string) :
  searchSimilarChunks q None filename w = searchSimilarChunks q (Some 3%Z) filename w /\
  exists cs w',
    searchSimilarChunks q None filename w = (Fulfilled cs, w') /\
    (length cs <= 3)%nat /\
    (reachable (store w) = true ->
     length cs = Nat.min 3 (length (candidates filename (store w)))).
Proof.
  split; [reflexivity|]. destruct (reachable (store w)) eqn:Hr.
  - rewrite search_reachable by exact Hr. do 2 eexists. split; [reflexivity|].
    rewrite rank_length by (unfold limit_of, default_limit; lia).
    unfold limit_of, default_limit. change (Z.to_nat 3) with 3%nat.
    split; [lia|]. reflexivity.
  - rewrite search_unreachable by exact Hr. do 2 eexists. split; [reflexivity|].
    split; [cbn; lia | discriminate].
Qed.

(** * Zero norms *)

(** C3, amended: when the first vector has Euclidean norm exactly zero
    (every component a zero, or no component at all), or the second has and
    is at least as long as the first, [cosineSimilarity] returns exactly 0:
    no [NaN], no exception, no division. *)
Theorem cosine_zero_norm (a b : list Js.number) :
  all_zero a = true \/ (all_zero b = true /\ (length a <= length b)%nat) ->
  cosineSimilarity a b = zero.
Proof.
  intros [Ha | [Hb Hlen]].
  - now apply cosine_all_zero_first.
  - now apply cosine_all_zero_second.
Qed.

Lemma cosine_zero_norm_witness :
  (all_zero [1; 2]%float = true \/
   (all_zero [0; (-0); 0]%float = true /\ (length [1; 2]%float <= length [0; (-0); 0]%float)%nat)) /\
  cosineSimilarity [1; 2]%float [0; (-0); 0]%float = zero.
Proof.
  assert (H : all_zero [1; 2]%float = true \/
              (all_zero [0; (-0); 0]%float = true /\
               (length [1; 2]%float <= length [0; (-0); 0]%float)%nat)).
  { right. split; [reflexivity | cbn; lia]. }
  split; [exact H|]. exact (@cosine_zero_norm [1; 2]%float [0; (-0); 0]%float H).
Defined.

(** C3 as stated fails when the zero vector is the second one and the
    shorter: the loop reads past its end and the result is [NaN]. *)
Lemma cosine_short_zero_vector :
  all_zero [0]%float = true /\
  cosineSimilarity [1; 1]%float [0]%float = nan /\
  all_zero [] = true /\
  cosineSimilarity [1]%float [] = nan.
Proof. vm_compute. repeat split. Qed.

(** * Failures *)

(** C4, amended: whenever the candidate retrieval fails with a storage
    error, the call fulfils its promise with the empty sequence and reports
    the failure on the error channel; no call ever rejects.  A mismatch of
    dimensions is no failure: when the store answers, whatever the lengths
    of the embeddings, nothing is reported on the error channel, the
    chunks returned are candidates, they are as many as the limit allows,
    and under a limit that covers the candidates they are all of them. *)
Theorem search_degrades_to_empty (w : World) (q : list Js.number) (limit : option Z)
    (filename : option string) :
  exists cs log,
    searchSimilarChunks q limit filename w =
      (Fulfilled cs, {| store := store w; console := console w ++ log |}) /\
    (reachable (store w) = false ->
       cs = [] /\ In (LevelError, MsgSearchFailed StorageUnavailable) log) /\
    (reachable (store w) = true ->
       (forall m, ~ In (LevelError, m) log) /\
       (exists omitted, Permutation (cs ++ omitted) (candidates filename (store w))) /\
       ((0 <= limit_of limit)%Z ->
        length cs = Nat.min (Z.to_nat (limit_of limit))
                            (length (candidates filename (store w)))) /\
       ((Z.of_nat (length (candidates filename (store w))) <= limit_of limit)%Z ->
        Permutation cs (candidates filename (store w)))).
Proof.
  destruct (reachable (store w)) eqn:Hr.
  - rewrite search_reachable by exact Hr. do 2 eexists. split; [reflexivity|].
    split; [discriminate|]. intros _. split; [|split; [|split]].
    + assert (He : forall m, announcement filename <> (LevelError, m)).
      { intro m. unfold announcement.
        destruct filename as [f|]; [destruct (Js.truthy (Some f))|]; discriminate. }
      intros m Hm. cbn [In app] in Hm. rewrite in_app_iff in Hm.
      unfold first_metadata in Hm.
      destruct (candidates filename (store w)); cbn [In] in Hm;
        repeat match goal with H : _ \/ _ |- _ => destruct H end;
        try discriminate; try contradiction; eapply He; eassumption.
    + destruct (rank_split q (limit_of limit) (candidates filename (store w)))
        as (n & _ & Hp).
      eexists. exact Hp.
    + apply rank_length.
    + apply rank_all.
  - rewrite search_unreachable by exact Hr. do 2 eexists. split; [reflexivity|].
    split; [|discriminate]. intros _. split; [reflexivity | cbn; tauto].
Qed.

(** C4 as stated fails on a mismatch of dimensions: a candidate with a
    one-component embedding, queried with two components, is returned. *)
Lemma search_mismatch_not_empty :
  ids (returned (searchSimilarChunks [1; 0]%float None (Some "x.pdf"%string)
                                     (world_of [stored 0 "x.pdf" [1]%float])))
  = [Some 0%nat].
Proof. vm_compute. reflexivity. Qed.

(** The corpus behind a store that does not answer: nothing is returned,
    and the console ends with the error. *)
Example search_offline :
  searchSimilarChunks query None (Some "x.pdf"%string) (offline (world_of corpus)) =
  (Fulfilled [],
   {| store := store (offline (world_of corpus));
      console := [(LevelLog, MsgAttempting); (LevelLog, MsgFallingBack);
                  (LevelLog, MsgFiltering "x.pdf");
                  (LevelError, MsgSearchFailed StorageUnavailable)] |}).
Proof. reflexivity. Qed.

(** C5, amended: a malformed pair never aborts the search, and it is not
    skipped either: every candidate stays in the ranking.  Its score is 0
    when the query is empty (or its sum of squares is zero); [NaN] when the
    candidate is shorter than such a query, the empty candidate included;
    and the score of the candidate cut to the query's length when the
    candidate is longer. *)
Theorem malformed_pair_is_scored (q b : list Js.number) :
  (q = [] -> cosineSimilarity q b = zero) /\
  ((length b < length q)%nat ->
     cosineSimilarity q b = if is_zero (squared_norm q) then zero else nan) /\
  ((length q <= length b)%nat ->
     cosineSimilarity q b = cosineSimilarity q (firstn (length q) b)) /\
  (forall (w : World) (limit : option Z) (filename : option string),
     reachable (store w) = true ->
     (Z.of_nat (length (candidates filename (store w))) <= limit_of limit)%Z ->
     Permutation (returned (searchSimilarChunks q limit filename w))
                 (candidates filename (store w))).
Proof.
  split; [|split; [|split]].
  - intros ->. reflexivity.
  - intro Hlen. destruct (is_zero (squared_norm q)) eqn:Hz.
    + now apply cosine_zero_query.
    + now apply cosine_short_candidate.
  - intros _. apply cosine_long_candidate.
  - intros w limit filename Hr Hk. rewrite search_reachable by exact Hr.
    cbn [returned fst]. now apply rank_all.
Qed.

(** C5 as stated fails on a candidate of zero length: its score is [NaN],
    not 0, and it is returned, here ahead of a well-formed candidate. *)
Lemma search_empty_candidate_ranked :
  score_of query (chunk_of_doc (stored 0 "x.pdf" [])) = nan /\
  ids (returned (searchSimilarChunks query None (Some "x.pdf"%string) (world_of with_empty)))
  = [Some 0%nat; Some 1%nat].
Proof. vm_compute. split; reflexivity. Qed.

(** * Order of the result *)

(** C7, amended: a second call on the same input returns the same
    sequence, whatever the scores; and when no candidate's score is [NaN],
    the returned chunks are in descending order of score and every omitted
    candidate scores at most as much as every returned one. *)
Theorem search_descending (w : World) (q : list Js.number) (limit : option Z)
    (filename : option string) :
  exists cs w',
    searchSimilarChunks q limit filename w = (Fulfilled cs, w') /\
    fst (searchSimilarChunks q limit filename w') = Fulfilled cs /\
    (Forall (fun c => is_number (score_of q c) = true) (candidates filename (store w)) ->
     StronglySorted (fun a b => at_least (score_of q a) (score_of q b)) cs /\
     (reachable (store w) = true ->
      exists omitted,
        Permutation (cs ++ omitted) (candidates filename (store w)) /\
        forall a b, In a cs -> In b omitted -> at_least (score_of q a) (score_of q b))).
Proof.
  destruct (reachable (store w)) eqn:Hr.
  - rewrite search_reachable by exact Hr. do 2 eexists. split; [reflexivity|].
    split; [rewrite search_reachable by exact Hr; reflexivity|].
    intro Hn.
    destruct (rank_descending q (limit_of limit) Hn) as (omitted & Hp & Hs & Hd).
    split; [exact Hs|]. intros _. now exists omitted.
  - rewrite search_unreachable by exact Hr. do 2 eexists. split; [reflexivity|].
    split; [rewrite search_unreachable by exact Hr; reflexivity|].
    intros _. split; [constructor | discriminate].
Qed.

Lemma search_descending_witness :
  Forall (fun c => is_number (score_of query c) = true)
         (candidates None (store (world_of corpus))) /\
  exists cs w',
    searchSimilarChunks query (Some 2%Z) None (world_of corpus) = (Fulfilled cs, w') /\
    fst (searchSimilarChunks query (Some 2%Z) None w') = Fulfilled cs /\
    StronglySorted (fun a b => at_least (score_of query a) (score_of query b)) cs /\
    exists omitted,
      Permutation (cs ++ omitted) (candidates None (store (world_of corpus))) /\
      forall a b, In a cs -> In b omitted ->
                  at_least (score_of query a) (score_of query b).
Proof.
  assert (H : Forall (fun c => is_number (score_of query c) = true)
                     (candidates None (store (world_of corpus)))).
  { repeat constructor. }
  split; [exact H|].
  destruct (search_descending (world_of corpus) query (Some 2%Z) None)
    as (cs & w' & E & Hagain & Hsorted).
  destruct (Hsorted H) as [Hs Hom].
  exists cs, w'. split; [exact E|]. split; [exact Hagain|]. split; [exact Hs|].
  exact (Hom eq_refl).
Defined.

(** C7 as stated fails when a score is [NaN]: of the two chunks returned,
    the first does not score at least as much as the second. *)
Lemma search_nan_not_descending :
  match map (score_of query)
            (returned (searchSimilarChunks query None (Some "x.pdf"%string) (world_of ragged)))
  with
  | [s1; s2] => PrimFloat.leb s2 s1
  | _ => true
  end = false.
Proof. vm_compute. reflexivity. Qed.

(** * Ingestion *)

Lemma getDocumentByHash_reachable (h : string) (w : World) :
  reachable (store w) = true ->
  getDocumentByHash h w =
  (Fulfilled (match records_with_hash h (store w) with
              | [] => None
              | d :: _ => Some (document_doc_data d)
              end), w).
Proof.
  intro Hr. unfold getDocumentByHash, bind, documents_get_by_hash, records_with_hash.
  rewrite Hr. now destruct (filter _ (documents (store w))).
Qed.

Lemma getDocumentByHash_unreachable (h : string) (w : World) :
  reachable (store w) = false ->
  getDocumentByHash h w = (Rejected StorageUnavailable, w).
Proof.
  intro Hr. unfold getDocumentByHash, bind, documents_get_by_hash. now rewrite Hr.
Qed.

Lemma filter_app_one {A : Type} (p : A -> bool) (l : list A) (x : A) :
  p x = true -> filter p (l ++ [x]) = filter p l ++ [x].
Proof. intro H. rewrite filter_app. cbn. now rewrite H. Qed.

(** C2: when [getDocumentByHash] finds a record for the content hash, the
    ingestion sequence reports the document as already ingested and leaves
    the registry and the chunk store as they were: no second record, no
    second set of chunks. *)
Theorem reingestion_is_skipped (w : World) (now : Date) (metadata : DocumentMetadata.t)
    (chunks : list Chunk.t) (record : DocumentMetadata.t) :
  fst (getDocumentByHash (DocumentMetadata.hash metadata) w) = Fulfilled (Some record) ->
  ingest now metadata chunks w = (Fulfilled AlreadyIngested, w) /\
  documents (store (snd (ingest now metadata chunks w))) = documents (store w) /\
  document_chunks (store (snd (ingest now metadata chunks w))) = document_chunks (store w).
Proof.
  intro H. destruct (reachable (store w)) eqn:Hr.
  - rewrite getDocumentByHash_reachable in H by exact Hr. cbn [fst] in H.
    assert (E : ingest now metadata chunks w = (Fulfilled AlreadyIngested, w)).
    { unfold ingest, bind. rewrite getDocumentByHash_reachable by exact Hr.
      now destruct (records_with_hash _ (store w)). }
    rewrite E. repeat split.
  - rewrite getDocumentByHash_unreachable in H by exact Hr. discriminate.
Qed.

Lemma reingestion_is_skipped_witness :
  fst (getDocumentByHash (DocumentMetadata.hash contract) ingested_once)
    = Fulfilled (Some (DocumentMetadata.mk "3a7bd3e2" "x.pdf" "legal" None (Some 1000%Z))) /\
  ingest 2000%Z contract contract_chunks ingested_once
    = (Fulfilled AlreadyIngested, ingested_once) /\
  documents (store (snd (ingest 2000%Z contract contract_chunks ingested_once)))
    = documents (store ingested_once) /\
  document_chunks (store (snd (ingest 2000%Z contract contract_chunks ingested_once)))
    = document_chunks (store ingested_once).
Proof.
  assert (H : fst (getDocumentByHash (DocumentMetadata.hash contract) ingested_once)
    = Fulfilled (Some (DocumentMetadata.mk "3a7bd3e2" "x.pdf" "legal" None (Some 1000%Z))))
    by reflexivity.
  split; [exact H|].
  exact (@reingestion_is_skipped ingested_once 2000%Z contract contract_chunks _ H).
Defined.

(** Ingesting the same content twice, starting from a registry without
    the hash, leaves one record for it and the chunks of the first
    ingestion only. *)
Lemma ingest_twice (w : World) (now now' : Date) (metadata : DocumentMetadata.t)
    (chunks : list Chunk.t) :
  reachable (store w) = true ->
  valid_metadata metadata = true -> forallb valid_chunk chunks = true ->
  records_with_hash (DocumentMetadata.hash metadata) (store w) = [] ->
  exists w1,
    ingest now metadata chunks w = (Fulfilled NewlyIngested, w1) /\
    ingest now' metadata chunks w1 = (Fulfilled AlreadyIngested, w1) /\
    length (records_with_hash (DocumentMetadata.hash metadata) (store w1)) = 1%nat /\
    document_chunks (store w1) =
      document_chunks (store w) ++ chunk_docs (S (next_id (store w))) now chunks.
Proof.
  intros Hr Hm Hc Hnone.
  assert (E1 : exists w1, ingest now metadata chunks w = (Fulfilled NewlyIngested, w1) /\
     reachable (store w1) = true /\
     records_with_hash (DocumentMetadata.hash metadata) (store w1) =
       [{| document_doc_id := next_id (store w);
           document_doc_data :=
             DocumentMetadata.mk (DocumentMetadata.hash metadata)
               (DocumentMetadata.filename metadata) (DocumentMetadata.persona metadata)
               (DocumentMetadata.summary metadata) (Some now) |}] /\
     document_chunks (store w1) =
       document_chunks (store w) ++ chunk_docs (S (next_id (store w))) now chunks).
  { unfold ingest, bind. rewrite getDocumentByHash_reachable, Hnone by exact Hr.
    unfold saveDocumentMetadata, saveChunks, with_store, ret. cbv zeta. rewrite Hr, Hm, Hc.
    cbn [store reachable next_id document_chunks documents console].
    eexists. split; [reflexivity|]. cbn [store reachable document_chunks documents].
    split; [reflexivity|]. split; [|reflexivity].
    unfold records_with_hash in *. cbn [documents].
    rewrite filter_app_one, Hnone; [reflexivity|]. cbn. apply String.eqb_refl. }
  destruct E1 as (w1 & E1 & Hr1 & Hrec & Hch). exists w1.
  split; [exact E1|]. split; [|split; [now rewrite Hrec | exact Hch]].
  unfold ingest, bind. rewrite getDocumentByHash_reachable, Hrec by exact Hr1. reflexivity.
Qed.

(** * Self-similarity *)

Lemma sums_from_self (v : list Js.number) (s : Sums) :
  dotProduct s = normA s -> normB s = normA s ->
  dotProduct (sums_from s v v) = normA (sums_from s v v) /\
  normB (sums_from s v v) = normA (sums_from s v v).
Proof.
  revert s. induction v as [|x v IH]; intros s Hd Hn; [now split|].
  cbn [sums_from hd tl]. apply IH; cbn; congruence.
Qed.

(** Comparing a vector with itself, the three sums coincide. *)
Lemma cosine_self (v : list Js.number) :
  cosineSimilarity v v =
  if is_zero (squared_norm v) then zero
  else (squared_norm v / (PrimFloat.sqrt (squared_norm v) * PrimFloat.sqrt (squared_norm v)))%float.
Proof.
  unfold cosineSimilarity, squared_norm, is_zero. rewrite sums_unfold.
  destruct (@sums_from_self v sums0 eq_refl eq_refl) as [-> ->].
  now rewrite orb_diag.
Qed.

(** C9, amended: for every embedding [v] whose accumulated sum of squares
    lies between [2^-1021] and [2^1021], [cosineSimilarity v v] is a finite
    number within [2^-49] of 1.0. *)
Theorem cosine_self_similarity (v : list Js.number) :
  in_range (squared_norm v) = true ->
  is_finite (cosineSimilarity v v) = true /\
  (Rabs (to_R (cosineSimilarity v v) - 1) <= bpow (-49))%R.
Proof.
  intro H. rewrite cosine_self.
  pose proof (Float64.in_range_not_zero _ H) as Hz.
  change (is_zero (squared_norm v) = false) in Hz. rewrite Hz.
  now apply Float64.self_quotient.
Qed.

Lemma cosine_self_similarity_witness :
  in_range (squared_norm [0.5; 0.75; 0.125]%float) = true /\
  is_finite (cosineSimilarity [0.5; 0.75; 0.125]%float [0.5; 0.75; 0.125]%float) = true /\
  (Rabs (to_R (cosineSimilarity [0.5; 0.75; 0.125]%float [0.5; 0.75; 0.125]%float) - 1)
   <= bpow (-49))%R.
Proof.
  assert (H : in_range (squared_norm [0.5; 0.75; 0.125]%float) = true) by reflexivity.
  split; [exact H|]. exact (@cosine_self_similarity [0.5; 0.75; 0.125]%float H).
Defined.

(** C9 as stated fails for non-zero embeddings whose sum of squares leaves
    the range of binary64: when it overflows the result is [NaN], and when
    it underflows to zero the result is 0. *)
Lemma cosine_self_out_of_range :
  all_zero [0x1p+600]%float = false /\
  cosineSimilarity [0x1p+600]%float [0x1p+600]%float = nan /\
  all_zero [0x1p-600]%float = false /\
  cosineSimilarity [0x1p-600]%float [0x1p-600]%float = zero.
Proof. vm_compute. repeat split. Qed.

(** * Symmetry and [NaN] in the similarity *)

Lemma sums_from_swap (a : list Js.number) : forall (b : list Js.number) (s : Sums),
  length a = length b -> sums_from (swap s) b a = swap (sums_from s a b).
Proof.
  induction a as [|x a IH]; intros [|y b] s Hlen; try discriminate; [reflexivity|].
  cbn [sums_from hd tl]. rewrite <- IH by (cbn in Hlen; lia).
  f_equal. unfold swap, step. cbn. now rewrite (Float64.mul_comm y x).
Qed.

(** X1: on two vectors of the same length the similarity does not depend
    on the order of its arguments, bit for bit. *)
Theorem cosine_symmetric (a b : list Js.number) :
  length a = length b -> cosineSimilarity a b = cosineSimilarity b a.
Proof.
  intro Hlen. unfold cosineSimilarity. rewrite !sums_unfold.
  pose proof (sums_from_swap a b sums0 Hlen) as E.
  change (swap sums0) with sums0 in E. rewrite E. cbn [swap dotProduct normA normB].
  rewrite orb_comm. now rewrite Float64.mul_comm.
Qed.

Lemma cosine_symmetric_witness :
  cosineSimilarity query [0.5; 0.75]%float = cosineSimilarity [0.5; 0.75]%float query.
Proof. apply cosine_symmetric. reflexivity. Defined.

Lemma sums_from_nan_left (a b : list Js.number) : forall s,
  dotProduct s = nan -> normA s = nan ->
  dotProduct (sums_from s a b) = nan /\ normA (sums_from s a b) = nan.
Proof.
  revert b. induction a as [|x a IH]; intros b s Hd Hn; [now split|].
  cbn [sums_from]. apply IH; unfold step; cbn [dotProduct normA].
  - now rewrite Hd, Float64.add_nan_l.
  - now rewrite Hn, Float64.add_nan_l.
Qed.

Lemma sums_from_nan_component (a : list Js.number) : forall b s,
  In nan a -> dotProduct (sums_from s a b) = nan /\ normA (sums_from s a b) = nan.
Proof.
  induction a as [|x a IH]; intros b s Hin; [destruct Hin|].
  cbn [sums_from]. destruct Hin as [-> | Hin]; [|now apply IH].
  apply sums_from_nan_left; unfold step; cbn [dotProduct normA].
  - now rewrite Float64.mul_nan_l, Float64.add_nan_r.
  - now rewrite Float64.mul_nan_l, Float64.add_nan_r.
Qed.

(** X2: when a component of the first vector is [NaN], the similarity is
    [NaN], except that it is 0 when the second sum of squares is zero: it
    is never another number. *)
Theorem cosine_nan_query (a b : list Js.number) :
  In nan a ->
  cosineSimilarity a b = if is_zero (normB (sums a b)) then zero else nan.
Proof.
  intro Hin. unfold cosineSimilarity, is_zero. rewrite !sums_unfold.
  destruct (sums_from_nan_component a b sums0 Hin) as [Hd Hn]. rewrite Hd, Hn.
  unfold Js.strict_eq. change (PrimFloat.eqb nan zero) with false. cbn [orb].
  destruct (PrimFloat.eqb (normB (sums_from sums0 a b)) zero); [reflexivity|].
  apply Float64.div_nan_l.
Qed.

Lemma cosine_nan_query_witness :
  cosineSimilarity [nan; 1]%float [1; 1]%float
  = if is_zero (normB (sums [nan; 1]%float [1; 1]%float)) then zero else nan.
Proof. apply cosine_nan_query. now left. Defined.

(** * The comparator and ties *)

(** X3: the comparator [b.score - a.score] is negative, so that the sort
    puts [a] before [b], exactly when [b.score < a.score]; the rounded
    difference never loses the sign, and a [NaN] on either side makes both
    false. *)
Theorem comparator_sign (a b : Scored) :
  Js.before by_score a b = PrimFloat.ltb (score b) (score a).
Proof.
  destruct (PrimFloat.is_nan (score a)) eqn:Ha; [|destruct (PrimFloat.is_nan (score b)) eqn:Hb].
  - unfold Js.before, by_score.
    destruct (@Float64.sub_nan (score b) (score a)) as [-> ->]; auto.
  - unfold Js.before, by_score.
    destruct (@Float64.sub_nan (score b) (score a)) as [-> ->]; auto.
  - unfold Js.before, by_score. now apply Float64.sub_negative.
Qed.

Section Stability.
Context {A : Type} (comparefn : A -> A -> Js.number) (P : A -> bool).
Hypothesis apart : forall x y, Js.before comparefn y x = true -> P x = true -> P y = false.

Lemma insert_filter (x : A) (l : list A) :
  filter P (Js.insert comparefn x l) = filter P (x :: l).
Proof.
  induction l as [|y l IH]; [reflexivity|]. cbn [Js.insert].
  destruct (Js.before comparefn y x) eqn:E; [|reflexivity].
  cbn [filter] in *. rewrite IH.
  destruct (P x) eqn:Px; [|reflexivity].
  now rewrite (apart E Px).
Qed.

(** Elements that the comparator never separates keep their order. *)
Lemma sort_filter (l : list A) : filter P (Js.sort comparefn l) = filter P l.
Proof.
  induction l as [|x l IH]; [reflexivity|].
  cbn [Js.sort fold_right]. fold (Js.sort comparefn l).
  rewrite insert_filter. cbn [filter]. now rewrite IH.
Qed.
End Stability.

Lemma filter_map_commute {A B : Type} (f : A -> B) (P : B -> bool) (l : list A) :
  filter P (map f l) = map f (filter (fun a => P (f a)) l).
Proof.
  induction l as [|a l IH]; [reflexivity|]. cbn. rewrite IH. now destruct (P (f a)).
Qed.

Lemma rank_ties (q : list Js.number) (k : Z) (l : list Chunk.t) (s : Js.number) :
  exists rest, scoring q s l = scoring q s (rank q k l) ++ rest.
Proof.
  unfold scoring, rank. set (scored := map (score_chunk q) l).
  destruct (slice0_prefix (Js.sort by_score scored) k) as [n ->].
  set (P := fun x : Scored => PrimFloat.eqb (score x) s).
  assert (Hst : filter P (Js.sort by_score scored) = filter P scored).
  { apply sort_filter. intros x y Hb Px. unfold P in *.
    unfold Js.before, by_score in Hb.
    destruct (PrimFloat.is_nan (score x)) eqn:Nx.
    - apply Float64.is_nan_decoded in Nx.
      rewrite FloatAxioms.eqb_spec, Nx in Px. discriminate.
    - destruct (PrimFloat.is_nan (score y)) eqn:Ny.
      + apply Float64.is_nan_decoded in Ny.
        now rewrite FloatAxioms.eqb_spec, Ny.
      + rewrite Float64.sub_negative in Hb by assumption.
        now apply Float64.ltb_eqb_apart with (a := score x). }
  exists (map chunk (filter P (skipn n (Js.sort by_score scored)))).
  rewrite filter_map_commute.
  rewrite (filter_ext_in (fun a => PrimFloat.eqb (score_of q (chunk a)) s) P).
  - rewrite <- map_app, <- filter_app, firstn_skipn, Hst.
    unfold scored. rewrite <- (chunk_score_chunk q l) at 1.
    rewrite filter_map_commute. f_equal. apply filter_ext_in.
    intros a Ha. unfold scored in Ha. apply in_map_iff in Ha as (c & <- & _). reflexivity.
  - intros a Ha.
    assert (Ha' : In a (Js.sort by_score scored)).
    { rewrite <- (firstn_skipn n (Js.sort by_score scored)). apply in_or_app. now left. }
    pose proof (sorted_scores q l) as Hs. rewrite Forall_forall in Hs.
    unfold P. now rewrite (Hs a Ha').
Qed.

(** X4: when no candidate's score is [NaN] (so that the comparator is
    consistent and the stable sort has one possible result), the returned
    chunks of any one score are, in the snapshot's order, the first of the
    candidates of that score: ties are never reordered, and a tie cut by
    the limit loses its last members. *)
Theorem search_ties_keep_snapshot_order (w : World) (q : list Js.number) (limit : option Z)
    (filename : option string) (s : Js.number) :
  Forall (fun c => is_number (score_of q c) = true) (candidates filename (store w)) ->
  exists rest,
    scoring q s (candidates filename (store w)) =
    scoring q s (returned (searchSimilarChunks q limit filename w)) ++ rest.
Proof.
  intros _. destruct (reachable (store w)) eqn:Hr.
  - rewrite search_reachable by exact Hr. cbn [returned fst]. apply rank_ties.
  - rewrite search_unreachable by exact Hr. cbn [returned fst]. now eexists.
Qed.

Lemma search_ties_keep_snapshot_order_witness :
  exists rest,
    scoring query (score_of query (chunk_of_doc (stored 0 "x.pdf" [0; 1]%float)))
      (candidates None (store (world_of twins))) =
    scoring query (score_of query (chunk_of_doc (stored 0 "x.pdf" [0; 1]%float)))
      (returned (searchSimilarChunks query (Some 3%Z) None (world_of twins))) ++ rest.
Proof.
  apply search_ties_keep_snapshot_order. repeat constructor.
Defined.

Section Unique.
Context {A : Type} (R : A -> A -> Prop).

(** A list has at most one sorted arrangement under an antisymmetric order. *)
Lemma sorted_unique (l1 : list A) : forall l2,
  StronglySorted R l1 -> StronglySorted R l2 -> Permutation l1 l2 ->
  (forall a b, In a l1 -> In b l1 -> R a b -> R b a -> a = b) ->
  l1 = l2.
Proof.
  induction l1 as [|a l1 IH]; intros l2 S1 S2 Hp Hanti.
  - apply Permutation_nil in Hp. now subst.
  - destruct l2 as [|b l2]; [apply Permutation_sym, Permutation_nil in Hp; discriminate|].
    inversion S1 as [|? ? S1' F1]; subst. inversion S2 as [|? ? S2' F2]; subst.
    assert (E : a = b).
    { assert (Ha : In a (b :: l2)) by (eapply Permutation_in; [exact Hp | now left]).
      assert (Hb : In b (a :: l1))
        by (eapply Permutation_in; [apply Permutation_sym; exact Hp | now left]).
      destruct Ha as [<- | Ha]; [reflexivity|]. destruct Hb as [-> | Hb]; [reflexivity|].
      apply Hanti; [now left | now right | |].
      - rewrite Forall_forall in F1. now apply F1.
      - rewrite Forall_forall in F2. now apply F2. }
    subst b. f_equal. apply IH; try assumption.
    + now apply Permutation_cons_inv in Hp.
    + intros x y Hx Hy. apply Hanti; now right.
Qed.
End Unique.

Lemma rank_permutation (q : list Js.number) (k : Z) (l1 l2 : list Chunk.t) :
  Permutation l1 l2 ->
  Forall (fun c => is_number (score_of q c) = true) l1 ->
  (forall a b, In a l1 -> In b l1 ->
     PrimFloat.eqb (score_of q a) (score_of q b) = true -> a = b) ->
  rank q k l1 = rank q k l2.
Proof.
  intros Hp Hn Hd. unfold rank. do 2 f_equal.
  apply sorted_unique with (R := fun a b => at_least (score a) (score b)).
  - apply sort_descending. rewrite Forall_forall in *. intros s Hs.
    apply in_map_iff in Hs as (c & <- & Hc). now apply Hn.
  - apply sort_descending. rewrite Forall_forall in *. intros s Hs.
    apply in_map_iff in Hs as (c & <- & Hc). apply Hn.
    eapply Permutation_in; [apply Permutation_sym; exact Hp | exact Hc].
  - rewrite !(sort_permutation by_score). now apply Permutation_map.
  - intros a b Ha Hb Hab Hba.
    apply (Permutation_in _ (sort_permutation by_score _)) in Ha, Hb.
    apply in_map_iff in Ha as (ca & <- & Ha). apply in_map_iff in Hb as (cb & <- & Hb).
    unfold at_least in *. cbn [score score_chunk] in *.
    fold (score_of q ca) in *. fold (score_of q cb) in *.
    rewrite (Hd ca cb Ha Hb); [reflexivity|]. now apply Float64.leb_antisym.
Qed.

(** X5: when the candidates' scores are numbers and no two different
    candidates score the same, the result does not depend on the order in
    which the snapshot lists the documents: two stores holding the same
    candidates in any two orders give the same answer. *)
Theorem search_ignores_snapshot_order (w1 w2 : World) (q : list Js.number)
    (limit : option Z) (filename : option string) :
  reachable (store w1) = reachable (store w2) ->
  Permutation (candidates filename (store w1)) (candidates filename (store w2)) ->
  Forall (fun c => is_number (score_of q c) = true) (candidates filename (store w1)) ->
  (forall a b, In a (candidates filename (store w1)) ->
               In b (candidates filename (store w1)) ->
               PrimFloat.eqb (score_of q a) (score_of q b) = true -> a = b) ->
  returned (searchSimilarChunks q limit filename w1) =
  returned (searchSimilarChunks q limit filename w2).
Proof.
  intros Hr Hp Hn Hd. destruct (reachable (store w1)) eqn:Hr1; symmetry in Hr.
  - rewrite !search_reachable by assumption. cbn [returned fst].
    now apply rank_permutation.
  - rewrite !search_unreachable by assumption. reflexivity.
Qed.

Lemma search_ignores_snapshot_order_witness :
  returned (searchSimilarChunks query (Some 2%Z) None (world_of corpus)) =
  returned (searchSimilarChunks query (Some 2%Z) None (world_of (rev corpus))).
Proof.
  apply search_ignores_snapshot_order.
  - reflexivity.
  - change (Permutation (map chunk_of_doc corpus) (map chunk_of_doc (rev corpus))).
    apply Permutation_map, Permutation_rev.
  - repeat constructor.
  - intros a b Ha Hb.
    change (In a (map chunk_of_doc corpus)) in Ha. change (In b (map chunk_of_doc corpus)) in Hb.
    cbn in Ha, Hb.
    repeat (destruct Ha as [<- | Ha]; [| try contradiction]);
    repeat (destruct Hb as [<- | Hb]; [| try contradiction]);
    intro E; try reflexivity; vm_compute in E; discriminate.
Defined.

(** * Limits *)

Lemma rank_prefix (q : list Js.number) (k k' : Z) (l : list Chunk.t) :
  (0 <= k <= k')%Z -> rank q k l = firstn (Z.to_nat k) (rank q k' l).
Proof.
  intros [H0 Hk]. unfold rank, Js.slice0.
  destruct (Z.ltb_spec k 0), (Z.ltb_spec k' 0); try lia.
  rewrite firstn_map, firstn_firstn. do 2 f_equal. lia.
Qed.

(** X6: a smaller non-negative limit returns the first chunks of what a
    larger limit returns; in particular the limit 0 returns nothing. *)
Theorem search_smaller_limit_is_prefix (w : World) (q : list Js.number) (k k' : Z)
    (filename : option string) :
  (0 <= k <= k')%Z ->
  returned (searchSimilarChunks q (Some k) filename w) =
  firstn (Z.to_nat k) (returned (searchSimilarChunks q (Some k') filename w)).
Proof.
  intro H. destruct (reachable (store w)) eqn:Hr.
  - rewrite !search_reachable by exact Hr. cbn [returned fst limit_of].
    now apply rank_prefix.
  - rewrite !search_unreachable by exact Hr. cbn [returned fst]. now rewrite firstn_nil.
Qed.

Lemma search_smaller_limit_is_prefix_witness :
  returned (searchSimilarChunks query (Some 1%Z) None (world_of corpus)) =
  firstn (Z.to_nat 1)
    (returned (searchSimilarChunks query (Some 2%Z) None (world_of corpus))).
Proof. apply search_smaller_limit_is_prefix. lia. Defined.

Lemma rank_negative (q : list Js.number) (k : Z) (l : list Chunk.t) :
  (k < 0)%Z ->
  rank q k l = firstn (length l - Z.to_nat (- k)) (rank q (Z.of_nat (length l)) l).
Proof.
  intro Hk. unfold rank, Js.slice0.
  rewrite (Permutation_length (sort_permutation by_score (map (score_chunk q) l))), length_map.
  destruct (Z.ltb_spec k 0), (Z.ltb_spec (Z.of_nat (length l)) 0); try lia.
  rewrite firstn_map, firstn_firstn. do 2 f_equal. lia.
Qed.

(** X7: a negative limit [k] returns the full ranking of the candidates
    without its last [-k] chunks (nothing when there are at most [-k]
    candidates). *)
Theorem search_negative_limit_drops_tail (w : World) (q : list Js.number) (k : Z)
    (filename : option string) :
  (k < 0)%Z ->
  returned (searchSimilarChunks q (Some k) filename w) =
  firstn (length (candidates filename (store w)) - Z.to_nat (- k))
         (returned (searchSimilarChunks q
                      (Some (Z.of_nat (length (candidates filename (store w))))) filename w)).
Proof.
  intros Hk. destruct (reachable (store w)) eqn:Hr.
  - rewrite !search_reachable by exact Hr. cbn [returned fst limit_of].
    now apply rank_negative.
  - rewrite !search_unreachable by exact Hr. cbn [returned fst]. now rewrite firstn_nil.
Qed.

Lemma search_negative_limit_drops_tail_witness :
  returned (searchSimilarChunks query (Some (-1)%Z) None (world_of corpus)) =
  firstn (length (candidates None (store (world_of corpus))) - Z.to_nat (- (-1)))
         (returned (searchSimilarChunks query
            (Some (Z.of_nat (length (candidates None (store (world_of corpus)))))) None
            (world_of corpus))).
Proof. apply search_negative_limit_drops_tail. lia. Defined.

(** * Saving, then searching *)



(** A [saveChunks] that is not fulfilled has changed nothing. *)
Lemma saveChunks_rejected (now : Date) (chunks : list Chunk.t) (w : World) :
  fst (saveChunks now chunks w) <> Fulfilled tt -> snd (saveChunks now chunks w) = w.
Proof.
  unfold saveChunks. cbv zeta.
  destruct (forallb valid_chunk chunks); [|reflexivity].
  destruct (reachable (store w)); [|reflexivity].
  intro H. now contradiction H.
Qed.



(** A batch with a chunk whose [pageNumber] is [undefined] is refused as a
    whole, and so is a record whose [summary] is [undefined]; the store
    stays as it was. *)
Example save_undefined_is_refused :
  saveChunks 1000%Z (contract_chunks ++ [unpaged]) (world_of corpus)
    = (Rejected InvalidDocument, world_of corpus) /\
  saveDocumentMetadata 1000%Z unsummarised (world_of corpus)
    = (Rejected InvalidDocument, world_of corpus).
Proof. split; reflexivity. Qed.

Lemma chunk_docs_filter_out (f : string) (now : Date) (chunks : list Chunk.t) :
  Forall (fun c => ChunkMetadata.filename (Chunk.metadata c) <> f) chunks ->
  forall first, filter (matches (Some f)) (chunk_docs first now chunks) = [].
Proof.
  induction 1 as [|c chunks Hc _ IH]; intro first; [reflexivity|].
  cbn [chunk_docs filter matches chunk_doc_metadata].
  destruct (String.eqb_spec (ChunkMetadata.filename (Chunk.metadata c)) f) as [E|_];
    [contradiction | apply IH].
Qed.

(** X9: saving chunks of other files does not change what a search scoped
    to a file name returns. *)
Theorem saving_another_file_keeps_search (w : World) (now : Date) (chunks : list Chunk.t)
    (f : string) (q : list Js.number) (limit : option Z) :
  f <> EmptyString ->
  Forall (fun c => ChunkMetadata.filename (Chunk.metadata c) <> f) chunks ->
  returned (searchSimilarChunks q limit (Some f) (snd (saveChunks now chunks w))) =
  returned (searchSimilarChunks q limit (Some f) w).
Proof.
  intros Hf Hc. unfold saveChunks. cbv zeta.
  destruct (forallb valid_chunk chunks); [|reflexivity].
  destruct (reachable (store w)) eqn:Hr; [|reflexivity].
  cbn [snd]. rewrite !search_reachable by (try exact Hr; reflexivity).
  cbn [returned fst]. f_equal. unfold candidates, scope. cbn [Js.truthy].
  destruct (String.eqb_spec f EmptyString) as [E0|_]; [contradiction|]. cbn [negb].
  cbn [with_store store document_chunks]. rewrite filter_app.
  now rewrite chunk_docs_filter_out, app_nil_r.
Qed.

Lemma saving_another_file_keeps_search_witness :
  returned (searchSimilarChunks query (Some 2%Z) (Some "y.pdf"%string)
              (snd (saveChunks 1000%Z contract_chunks (world_of corpus)))) =
  returned (searchSimilarChunks query (Some 2%Z) (Some "y.pdf"%string) (world_of corpus)).
Proof.
  apply saving_another_file_keeps_search; [discriminate|].
  repeat constructor; discriminate.
Defined.

(** X10: the two collections do not interfere: saving chunks leaves every
    lookup by hash as it was, and saving a document record leaves every
    search result as it was. *)
Theorem collections_are_independent (w : World) (now : Date) (chunks : list Chunk.t)
    (metadata : DocumentMetadata.t) (h : string) (q : list Js.number) (limit : option Z)
    (filename : option string) :
  fst (getDocumentByHash h (snd (saveChunks now chunks w))) = fst (getDocumentByHash h w) /\
  returned (searchSimilarChunks q limit filename (snd (saveDocumentMetadata now metadata w))) =
  returned (searchSimilarChunks q limit filename w).
Proof.
  unfold saveChunks, saveDocumentMetadata. cbv zeta.
  destruct (reachable (store w)) eqn:Hr;
    [|split; [destruct (forallb valid_chunk chunks) | destruct (valid_metadata metadata)];
      reflexivity].
  split.
  - destruct (forallb valid_chunk chunks); [|reflexivity]. cbn [snd].
    rewrite !getDocumentByHash_reachable by (try exact Hr; reflexivity). reflexivity.
  - destruct (valid_metadata metadata); [|reflexivity]. cbn [snd].
    rewrite !search_reachable by (try exact Hr; reflexivity). reflexivity.
Qed.

(** * The registry *)

(** What a fulfilled [saveDocumentMetadata] has done. *)
Lemma saveDocumentMetadata_fulfilled (now : Date) (metadata : DocumentMetadata.t) (w : World) :
  fst (saveDocumentMetadata now metadata w) = Fulfilled tt ->
  valid_metadata metadata = true /\ reachable (store w) = true /\
  saveDocumentMetadata now metadata w =
  (Fulfilled tt,
   with_store w {| reachable := true;
                   next_id := S (next_id (store w));
                   document_chunks := document_chunks (store w);
                   documents := documents (store w) ++
                     [{| document_doc_id := next_id (store w);
                         document_doc_data := stamped now metadata |}] |}).
Proof.
  unfold saveDocumentMetadata. cbv zeta.
  destruct (valid_metadata metadata); [|discriminate].
  destruct (reachable (store w)); [|discriminate].
  intros _. repeat split.
Qed.

(** A [saveDocumentMetadata] that is not fulfilled has changed nothing. *)
Lemma saveDocumentMetadata_rejected (now : Date) (metadata : DocumentMetadata.t) (w : World) :
  fst (saveDocumentMetadata now metadata w) <> Fulfilled tt ->
  snd (saveDocumentMetadata now metadata w) = w.
Proof.
  unfold saveDocumentMetadata. cbv zeta.
  destruct (valid_metadata metadata); [|reflexivity].
  destruct (reachable (store w)); [|reflexivity].
  intro H. now contradiction H.
Qed.

Lemma records_after_save (now : Date) (metadata : DocumentMetadata.t) (w : World) (h : string) :
  fst (saveDocumentMetadata now metadata w) = Fulfilled tt ->
  records_with_hash h (store (snd (saveDocumentMetadata now metadata w))) =
  records_with_hash h (store w) ++
  (if String.eqb (DocumentMetadata.hash metadata) h
   then [{| document_doc_id := next_id (store w);
            document_doc_data := stamped now metadata |}]
   else []).
Proof.
  intro Hok. destruct (saveDocumentMetadata_fulfilled now metadata w Hok) as (_ & _ & ->).
  unfold records_with_hash. cbn [snd with_store store documents].
  rewrite filter_app. cbn [filter document_doc_data stamped DocumentMetadata.hash].
  reflexivity.
Qed.



(** X12: [saveDocumentMetadata] does not deduplicate: each fulfilled call
    adds one record for its hash, whether or not the registry already
    holds one. *)
Theorem saveDocumentMetadata_never_deduplicates (w : World) (now : Date)
    (metadata : DocumentMetadata.t) :
  fst (saveDocumentMetadata now metadata w) = Fulfilled tt ->
  length (records_with_hash (DocumentMetadata.hash metadata)
            (store (snd (saveDocumentMetadata now metadata w))))
  = S (length (records_with_hash (DocumentMetadata.hash metadata) (store w))).
Proof.
  intro Hok.
  rewrite records_after_save, String.eqb_refl, length_app by exact Hok. cbn. lia.
Qed.

Lemma saveDocumentMetadata_never_deduplicates_witness :
  fst (saveDocumentMetadata 2000%Z contract ingested_once) = Fulfilled tt /\
  length (records_with_hash "3a7bd3e2" (store ingested_once)) = 1%nat /\
  length (records_with_hash "3a7bd3e2"
            (store (snd (saveDocumentMetadata 2000%Z contract ingested_once))))
  = S (length (records_with_hash "3a7bd3e2" (store ingested_once))).
Proof.
  split; [reflexivity|]. split; [reflexivity|].
  apply (@saveDocumentMetadata_never_deduplicates ingested_once 2000%Z contract). reflexivity.
Defined.

(** X13: when the store answers, [getDocumentByHash] changes nothing and
    returns [null] exactly when no record of the registry carries the
    hash; what it returns otherwise is the data of a stored record with
    that hash. *)
Theorem getDocumentByHash_finds_matching_record (w : World) (h : string) :
  reachable (store w) = true ->
  exists r,
    getDocumentByHash h w = (Fulfilled r, w) /\
    (r = None <-> forall d, In d (documents (store w)) ->
                            DocumentMetadata.hash (document_doc_data d) <> h) /\
    (forall m, r = Some m ->
       DocumentMetadata.hash m = h /\
       exists d, In d (documents (store w)) /\ document_doc_data d = m).
Proof.
  intro Hr. rewrite getDocumentByHash_reachable by exact Hr. eexists. split; [reflexivity|].
  unfold records_with_hash.
  destruct (filter _ (documents (store w))) as [|d ds] eqn:E.
  - split; [|discriminate]. split; [|reflexivity]. intros _ d Hd Hh.
    assert (Hin : In d (filter (fun d0 => String.eqb (DocumentMetadata.hash (document_doc_data d0)) h)
                               (documents (store w)))).
    { apply filter_In. split; [exact Hd|]. now apply String.eqb_eq. }
    rewrite E in Hin. destruct Hin.
  - assert (Hd : In d (filter (fun d0 => String.eqb (DocumentMetadata.hash (document_doc_data d0)) h)
                              (documents (store w)))) by (rewrite E; now left).
    apply filter_In in Hd as [Hd Hh]. apply String.eqb_eq in Hh. split.
    + split; [discriminate|]. intro H. exfalso. exact (H d Hd Hh).
    + intros m Hm. injection Hm as <-. split; [exact Hh|]. now exists d.
Qed.

Lemma getDocumentByHash_finds_matching_record_witness :
  exists r,
    getDocumentByHash "3a7bd3e2" ingested_once = (Fulfilled r, ingested_once) /\
    (r = None <-> forall d, In d (documents (store ingested_once)) ->
                            DocumentMetadata.hash (document_doc_data d) <> "3a7bd3e2"%string) /\
    (forall m, r = Some m ->
       DocumentMetadata.hash m = "3a7bd3e2"%string /\
       exists d, In d (documents (store ingested_once)) /\ document_doc_data d = m).
Proof. apply getDocumentByHash_finds_matching_record. reflexivity. Defined.

(** X14: saving a record does not change the lookup of any other hash. *)
Theorem lookup_of_another_hash_is_unchanged (w : World) (now : Date)
    (metadata : DocumentMetadata.t) (h : string) :
  DocumentMetadata.hash metadata <> h ->
  fst (getDocumentByHash h (snd (saveDocumentMetadata now metadata w)))
  = fst (getDocumentByHash h w).
Proof.
  intro Hh. destruct (fst (saveDocumentMetadata now metadata w)) as [[]|e] eqn:Hok.
  - destruct (saveDocumentMetadata_fulfilled now metadata w Hok) as (_ & Hr & E).
    assert (Hr' : reachable (store (snd (saveDocumentMetadata now metadata w))) = true)
      by now rewrite E.
    rewrite !getDocumentByHash_reachable by assumption.
    rewrite records_after_save by exact Hok.
    destruct (String.eqb_spec (DocumentMetadata.hash metadata) h) as [E'|_]; [contradiction|].
    now rewrite app_nil_r.
  - rewrite saveDocumentMetadata_rejected; [reflexivity|]. rewrite Hok. discriminate.
Qed.

Lemma lookup_of_another_hash_is_unchanged_witness :
  fst (getDocumentByHash "77de68da" (snd (saveDocumentMetadata 2000%Z contract ingested_once)))
  = fst (getDocumentByHash "77de68da" ingested_once).
Proof. apply lookup_of_another_hash_is_unchanged. discriminate. Defined.

(** * Nothing is removed *)

Lemma perform_appends (c : Call) (w : World) :
  (exists added, document_chunks (store (perform c w)) = document_chunks (store w) ++ added) /\
  (exists added, documents (store (perform c w)) = documents (store w) ++ added).
Proof.
  destruct c as [now chunks | now metadata | h | q limit filename]; cbn [perform].
  - unfold saveChunks. cbv zeta.
    destruct (forallb valid_chunk chunks), (reachable (store w)); cbn.
    + split; [eauto | exists []; now rewrite app_nil_r].
    + split; exists []; now rewrite app_nil_r.
    + split; exists []; now rewrite app_nil_r.
    + split; exists []; now rewrite app_nil_r.
  - unfold saveDocumentMetadata. cbv zeta.
    destruct (valid_metadata metadata), (reachable (store w)); cbn.
    + split; [exists []; now rewrite app_nil_r | eauto].
    + split; exists []; now rewrite app_nil_r.
    + split; exists []; now rewrite app_nil_r.
    + split; exists []; now rewrite app_nil_r.
  - destruct (reachable (store w)) eqn:Hr.
    + rewrite getDocumentByHash_reachable by exact Hr. cbn [snd].
      split; exists []; now rewrite app_nil_r.
    + rewrite getDocumentByHash_unreachable by exact Hr. cbn [snd].
      split; exists []; now rewrite app_nil_r.
  - destruct (search_total w q limit filename) as (cs & log & E & _). rewrite E. cbn.
    split; exists []; now rewrite app_nil_r.
Qed.

Lemma run_appends (calls : list Call) (w : World) :
  (exists added,
     document_chunks (store (run calls w)) = document_chunks (store w) ++ added) /\
  (exists added, documents (store (run calls w)) = documents (store w) ++ added).
Proof.
  unfold run. revert w. induction calls as [|c calls IH]; intro w; cbn [fold_left].
  - split; exists []; now rewrite app_nil_r.
  - destruct (perform_appends c w) as ([a1 E1] & [a2 E2]).
    destruct (IH (perform c w)) as ([b1 F1] & [b2 F2]).
    split; [exists (a1 ++ b1) | exists (a2 ++ b2)].
    + now rewrite F1, E1, app_assoc.
    + now rewrite F2, E2, app_assoc.
Qed.

(** X15: no sequence of calls of the four exported functions removes or
    alters a stored document: whatever the two collections hold stays in
    them, field for field. *)
Theorem stored_documents_are_never_removed (calls : list Call) (w : World) :
  incl (document_chunks (store w)) (document_chunks (store (run calls w))) /\
  incl (documents (store w)) (documents (store (run calls w))).
Proof.
  destruct (run_appends calls w) as ([a ->] & [b ->]).
  split; apply incl_appl, incl_refl.
Qed.

(** * The console *)

(** X16: a search never rejects and writes only to the console; it warns
    exactly when the file name is missing or empty (the one warning being
    that the search is global), and it logs an error exactly when the
    store did not answer. *)
Theorem search_console_levels (w : World) (q : list Js.number) (limit : option Z)
    (filename : option string) :
  exists cs log,
    searchSimilarChunks q limit filename w =
      (Fulfilled cs, {| store := store w; console := console w ++ log |}) /\
    (forall m, In (LevelWarn, m) log <-> m = MsgNoFilename /\ Js.truthy filename = false) /\
    (forall m, In (LevelError, m) log <->
               m = MsgSearchFailed StorageUnavailable /\ reachable (store w) = false).
Proof.
  assert (Ha : forall m, (LevelWarn, m) = announcement filename <->
                         m = MsgNoFilename /\ Js.truthy filename = false).
  { intro m. unfold announcement. destruct filename as [f|]; cbn [Js.truthy].
    - destruct (negb (String.eqb f EmptyString)); split.
      + discriminate. + intros [_ H]; discriminate.
      + intro H; injection H as ->; now split. + intros [-> _]; reflexivity.
    - split; [intro H; injection H as ->; now split | intros [-> _]; reflexivity]. }
  assert (He : forall m, (LevelError, m) <> announcement filename).
  { intro m. unfold announcement. destruct filename as [f|]; cbn [Js.truthy];
      [destruct (negb (String.eqb f EmptyString))|]; discriminate. }
  destruct (reachable (store w)) eqn:Hr.
  - rewrite search_reachable by exact Hr. do 2 eexists. split; [reflexivity|]. split.
    + intro m. rewrite <- Ha. cbn [In app]. rewrite in_app_iff.
      unfold first_metadata. destruct (candidates filename (store w)); cbn [In];
        split; intro H; intuition (try discriminate; auto).
    + intro m. cbn [In app]. rewrite in_app_iff. unfold first_metadata.
      destruct (candidates filename (store w)); cbn [In];
        split; intro H; intuition (try discriminate; auto).
      all: try (exfalso; eapply He; eauto).
  - rewrite search_unreachable by exact Hr. do 2 eexists. split; [reflexivity|]. split.
    + intro m. rewrite <- Ha. cbn [In]. split; intro H; intuition (try discriminate; auto).
    + intro m. cbn [In]. split; intro H.
      * intuition (try discriminate).
        -- exfalso; eapply He; eauto.
        -- match goal with H : _ = (LevelError, m) |- _ => injection H as <- end. reflexivity.
      * destruct H as [-> _]. auto 10.
Qed.

(** * The client handle *)

Lemma later_calls_cached (envs : list (option string)) : forall (p : Process) (c : Client),
  firestore p = Some c ->
  Forall (eq c) (fst (later_calls envs p)) /\
  firestore (snd (later_calls envs p)) = Some c /\
  constructed (snd (later_calls envs p)) = constructed p.
Proof.
  induction envs as [|v envs IH]; intros p c Hc; [now repeat split|].
  cbn [later_calls]. unfold getFirestore. cbn [setenv firestore]. rewrite Hc.
  destruct (IH (setenv v p) c Hc) as (H1 & H2 & H3).
  destruct (later_calls envs (setenv v p)) as [cs p'']. cbn [fst snd] in *.
  repeat split; [constructor; [reflexivity | exact H1] | exact H2 | exact H3].
Qed.

(** X17: [getFirestore] builds its client once: every later call returns
    the handle the first call returned and constructs nothing, whatever
    the environment has become; a handle built by the first call has the
    project id of the environment at that moment and the database id
    [voicedoc-fs]. *)
Theorem getFirestore_is_created_once (p : Process) (envs : list (option string)) :
  Forall (eq (fst (getFirestore p))) (fst (later_calls envs (snd (getFirestore p)))) /\
  constructed (snd (later_calls envs (snd (getFirestore p))))
    = constructed (snd (getFirestore p)) /\
  (firestore p = None ->
     projectId (fst (getFirestore p)) = VERTEX_PROJECT_ID p /\
     databaseId (fst (getFirestore p)) = "voicedoc-fs"%string /\
     constructed (snd (getFirestore p)) = S (constructed p)).
Proof.
  assert (H : firestore (snd (getFirestore p)) = Some (fst (getFirestore p))).
  { unfold getFirestore. destruct (firestore p) eqn:E; cbn; [exact E | reflexivity]. }
  destruct (later_calls_cached envs _ H) as (H1 & _ & H3).
  split; [exact H1|]. split; [exact H3|].
  intro E. unfold getFirestore. rewrite E. cbn. repeat split.
Qed.
